(** * Download queue of the Anyland archiver (old_archiver/queue.mjs)

    A shallow embedding of the module's state, of the JavaScript values it
    handles and of its three operations ([appendDownloadQueue],
    [queueSearch], [processQueueStep]), followed by the properties of the
    download-queue design that hold on it and the ones that do not. *)

From Stdlib Require Import List String Ascii ZArith Lia Bool DecimalString.
Import ListNotations.
Local Open Scope string_scope.
Local Open Scope list_scope.

(** ** JavaScript values *)

Local Set Warnings "-register-all".

(** The values that flow through the module: JSON data parsed from the search
    response, queue entries, names, and the error objects the runtime throws.
    Numbers are integers (lengths are the only numbers the module looks at).
    An object is the list of its own properties, without repeated keys. *)
Inductive value : Type :=
| VUndef
| VNull
| VBool (b : bool)
| VNum (n : Z)
| VStr (s : string)
| VObj (fields : list (string * value))
| VArr (items : list value)
| VError (name message : string).

(** What evaluating an expression gives: a value, or a thrown exception. *)
Inductive Result (A : Type) : Type :=
| Ok (a : A)
| Throw (e : value).
Arguments Ok {A} a.
Arguments Throw {A} e.

Definition TypeError (what : string) : value := VError "TypeError" what.
Definition ReferenceError (ident : string) : value :=
  VError "ReferenceError" (ident ++ " is not defined")%string.
Definition SyntaxError : value := VError "SyntaxError" "Unexpected token".

(** ToBoolean. *)
Definition truthy (v : value) : bool :=
  match v with
  | VUndef | VNull => false
  | VBool b => b
  | VNum n => negb (n =? 0)%Z
  | VStr s => negb (s =? "")
  | VObj _ | VArr _ | VError _ _ => true
  end.

Fixpoint lookup (k : string) (fields : list (string * value)) : option value :=
  match fields with
  | [] => None
  | (k', v) :: rest => if k =? k' then Some v else lookup k rest
  end.

(** [v.k] for a property name [k]: reading a property of [undefined] or
    [null] throws, a missing property reads as [undefined].  Strings and
    arrays have [length]; the prototype methods are not modelled, the module
    reads none of them through this path. *)
Definition get_prop (v : value) (k : string) : Result value :=
  match v with
  | VUndef => Throw (TypeError ("Cannot read properties of undefined (reading '" ++ k ++ "')")%string)
  | VNull => Throw (TypeError ("Cannot read properties of null (reading '" ++ k ++ "')")%string)
  | VObj fields => Ok (match lookup k fields with Some x => x | None => VUndef end)
  | VArr items => Ok (if k =? "length" then VNum (Z.of_nat (List.length items)) else VUndef)
  | VStr s => Ok (if k =? "length" then VNum (Z.of_nat (String.length s)) else VUndef)
  | VError n m =>
      Ok (if k =? "name" then VStr n else if k =? "message" then VStr m else VUndef)
  | VBool _ | VNum _ => Ok VUndef
  end.

Definition decimal (i : nat) : string :=
  DecimalString.NilZero.string_of_uint (Nat.to_uint i).

(** [v[i]] for a loop index [i], on a value whose [length] was read before
    (so [v] is neither [undefined] nor [null]). *)
Definition get_index (v : value) (i : nat) : value :=
  match v with
  | VArr items => nth i items VUndef
  | VStr s => match String.get i s with
              | Some c => VStr (String c EmptyString)
              | None => VUndef
              end
  | VObj fields => match lookup (decimal i) fields with Some x => x | None => VUndef end
  | _ => VUndef
  end.

(** How many times [for (let i = 0; i < len; i++)] runs its body when [len]
    does not change: [i < len] compares through ToNumber.  Numbers, booleans,
    [null] and [undefined] (NaN) are exact; a string or object [length] is
    taken as NaN, which ends the loop at once. *)
Definition loop_bound (len : value) : nat :=
  match len with
  | VNum n => Z.to_nat n
  | VBool true => 1
  | _ => 0
  end.

(** [a === b].  Primitives compare by value.  Two objects are equal only when
    they are the same object; the candidates the module compares are freshly
    parsed from a response, so an object is never identical to a stored one. *)
Definition strict_eq (a b : value) : bool :=
  match a, b with
  | VUndef, VUndef => true
  | VNull, VNull => true
  | VBool x, VBool y => Bool.eqb x y
  | VNum x, VNum y => (x =? y)%Z
  | VStr x, VStr y => (x =? y)
  | _, _ => false
  end.

(** [typeof v === 'undefined'] *)
Definition is_undefined (v : value) : bool :=
  match v with VUndef => true | _ => false end.

(** [xs.concat(v)]: an array argument is spread, anything else is appended as
    one element. *)
Definition concat (xs : list value) (v : value) : list value :=
  match v with
  | VArr items => xs ++ items
  | _ => xs ++ [v]
  end.

(** [String.prototype.toLowerCase], on the ASCII letters. *)
Definition lower_ascii (c : ascii) : ascii :=
  let n := nat_of_ascii c in
  if (65 <=? n)%nat && (n <=? 90)%nat then ascii_of_nat (n + 32) else c.

Fixpoint toLowerCase (s : string) : string :=
  match s with
  | EmptyString => EmptyString
  | String c rest => String (lower_ascii c) (toLowerCase rest)
  end.

(** ** A state and exception monad

    JavaScript statements mutate state and may throw; what was mutated before
    a throw stays mutated. *)
Definition M (S A : Type) : Type := S -> Result A * S.

Definition ret {S A} (a : A) : M S A := fun s => (Ok a, s).

Definition bind {S A B} (c : M S A) (k : A -> M S B) : M S B :=
  fun s => match c s with
           | (Ok a, s') => k a s'
           | (Throw e, s') => (Throw e, s')
           end.

Definition throw {S A} (e : value) : M S A := fun s => (Throw e, s).

(** [try { body } catch (e) { handler }] *)
Definition try_catch {S A} (body : M S A) (handler : value -> M S A) : M S A :=
  fun s => match body s with
           | (Ok a, s') => (Ok a, s')
           | (Throw e, s') => handler e s'
           end.

Definition gets {S A} (f : S -> A) : M S A := fun s => (Ok (f s), s).
Definition modify {S} (f : S -> S) : M S unit := fun s => (Ok tt, f s).
Definition lift_result {S A} (r : Result A) : M S A := fun s => (r, s).

Declare Scope js_scope.
Delimit Scope js_scope with js.
Notation "x <- c ;; k" := (bind c (fun x => k))
  (at level 61, c at next level, right associativity) : js_scope.
Notation "c ;; k" := (bind c (fun _ => k))
  (at level 61, right associativity) : js_scope.
Local Open Scope js_scope.

(** [c] keeps the property [I] of the state, however it ends. *)
Definition keeps {S A} (I : S -> Prop) (c : M S A) : Prop :=
  forall s, I s -> I (snd (c s)).

(** [console.log] and [console.error]: output only. *)
Definition console_log {S} (_ : list value) : M S unit := ret tt.

(** ** Module state and collaborators *)

(** Modelled from the spec: the Outcome Recorder ([addArchiveLog] and
    [logFailedArchive] of utils.mjs) is durable append-only logging, so a call
    is kept as one more record of the log and does not throw. *)
Inductive RecorderCall : Type :=
| AddArchiveLog (name id key subArea parentId : value)
| LogFailedArchive (name id key reason : value).

(** [downloadQueue] and [failedAreas] are the module's two arrays; [recorder]
    is the log written so far and [world] whatever the remote service and the
    archive index depend on. *)
Record State (W : Type) : Type := mkState {
  downloadQueue : list value;
  failedAreas : list value;
  recorder : list RecorderCall;
  world : W
}.
Arguments mkState {W}.
Arguments downloadQueue {W}.
Arguments failedAreas {W}.
Arguments recorder {W}.
Arguments world {W}.

Definition set_downloadQueue {W} (q : list value) (st : State W) : State W :=
  mkState q (failedAreas st) (recorder st) (world st).
Definition set_failedAreas {W} (f : list value) (st : State W) : State W :=
  mkState (downloadQueue st) f (recorder st) (world st).
Definition set_recorder {W} (r : list RecorderCall) (st : State W) : State W :=
  mkState (downloadQueue st) (failedAreas st) r (world st).
Definition set_world {W} (w : W) (st : State W) : State W :=
  mkState (downloadQueue st) (failedAreas st) (recorder st) w.

(** The [body] of a search response: absent, or a text, kept as the value
    [JSON.parse] makes of it ([None] when it is not JSON). *)
Inductive Body : Type :=
| NoBody
| Text (json : option value).

(** The collaborators imported from request, utils.mjs and area.mjs.  Each
    call may read and change the world; an awaited call gives the value its
    promise resolves to or throws what it rejects with.  [request] gives the
    callback's two arguments, [error] and [response] ([None] for
    [undefined]). *)
Record Env (W : Type) : Type := mkEnv {
  request : string -> W -> (value * option Body) * W;
  isAreaArchived : value -> value -> W -> Result value * W;
  getAreaIdentifiers : value -> value -> W -> Result value * W;
  getSubAreas : value -> W -> Result value * W;
  archiveArea : value -> value -> value -> value -> W -> Result value * W
}.
Arguments request {W}.
Arguments isAreaArchived {W}.
Arguments getAreaIdentifiers {W}.
Arguments getSubAreas {W}.
Arguments archiveArea {W}.

(** How the promise returned by [queueSearch] settles. *)
Inductive Settlement : Type :=
| Resolved
| Rejected (reason : value).

(** The variables of one [queueSearch] call next to the module state: the
    local array [queueAreas] and the state of the returned promise. *)
Record Frame (W : Type) : Type := mkFrame {
  module : State W;
  queueAreas : list value;
  promise : option Settlement
}.
Arguments mkFrame {W}.
Arguments module {W}.
Arguments queueAreas {W}.
Arguments promise {W}.

Definition set_queueAreas {W} (q : list value) (fr : Frame W) : Frame W :=
  mkFrame (module fr) q (promise fr).

(** Run a statement on the module state from inside a [queueSearch] call. *)
Definition in_module {W A} (c : M (State W) A) : M (Frame W) A :=
  fun fr => let (r, st) := c (module fr) in (r, mkFrame st (queueAreas fr) (promise fr)).

(** [xs.some(p)] *)
Fixpoint some (p : value -> Result bool) (xs : list value) : Result bool :=
  match xs with
  | [] => Ok false
  | x :: rest => match p x with
                 | Ok true => Ok true
                 | Ok false => some p rest
                 | Throw e => Throw e
                 end
  end.

(** [v.k] where the read cannot throw. *)
Definition prop (v : value) (k : string) : value :=
  match get_prop v k with
  | Ok x => x
  | Throw _ => VUndef
  end.

(** Neither [undefined] nor [null]: a value whose properties can be read. *)
Definition readable (v : value) : bool :=
  match v with
  | VUndef | VNull => false
  | _ => true
  end.

(** A queue entry of the documented shape: an object with a string [name]
    that stores its identifier under [id] and has no [areaId] property. *)
Definition documented_entry (entry : value) : bool :=
  match entry with
  | VObj fields =>
      match lookup "areaId" fields, lookup "name" fields with
      | None, Some (VStr _) => true
      | _, _ => false
      end
  | _ => false
  end.

Definition is_name (v : value) : bool :=
  match v with
  | VStr _ => true
  | _ => false
  end.

(** An area of a search result that carries a string [name] and an [id]. *)
Definition named_unit (area : value) : bool :=
  is_name (prop area "name") && negb (is_undefined (prop area "id")).

(** A response that carries no usable list of areas: no response, no body,
    a body that is not JSON, or results whose [areas] is missing or has no
    [length]. *)
Definition no_areas (results : value) : bool :=
  match get_prop results "areas" with
  | Ok areas =>
      is_undefined areas ||
      match get_prop areas "length" with
      | Ok len => is_undefined len
      | Throw _ => true
      end
  | Throw _ => true
  end.

Definition malformed (response : option Body) : bool :=
  match response with
  | None | Some NoBody | Some (Text None) => true
  | Some (Text (Some results)) => no_areas results
  end.

(** A search response whose [areas], when there are any, is an array of
    areas with string names. *)
Definition named_areas (response : option Body) : bool :=
  match response with
  | Some (Text (Some results)) =>
      match get_prop results "areas" with
      | Ok (VArr items) => forallb (fun area => is_name (prop area "name")) items
      | Ok VUndef | Throw _ => true
      | Ok _ => false
      end
  | _ => true
  end.

(** Line 5 and 6: both arrays start empty. *)
Definition initial {W} (w : W) : State W := mkState [] [] [] w.

(** Every queue entry has the documented shape and every element of
    [failedAreas] is a name. *)
Definition documented_state {W} (st : State W) : Prop :=
  forallb documented_entry (downloadQueue st) = true /\
  forallb is_name (failedAreas st) = true.

Section Operations.
Context {W : Type} (E : Env W).

(** Call a collaborator and await it. *)
Definition call (f : W -> Result value * W) : M (State W) value :=
  fun st => let (r, w) := f (world st) in (r, set_world w st).

Definition addArchiveLog (name id key subArea parentId : value) : M (State W) unit :=
  modify (fun st => set_recorder (recorder st ++ [AddArchiveLog name id key subArea parentId]) st).

Definition logFailedArchive (name id key reason : value) : M (State W) unit :=
  modify (fun st => set_recorder (recorder st ++ [LogFailedArchive name id key reason]) st).

(** [failedAreas.push(name)] *)
Definition push_failedAreas (name : value) : M (State W) unit :=
  modify (fun st => set_failedAreas (failedAreas st ++ [name]) st).

(** Lines 14-16. *)
Definition appendDownloadQueue (items : value) (st : State W) : State W :=
  set_downloadQueue (concat (downloadQueue st) items) st.

(** Lines 97-101. *)
Definition isInDownloadQueue (areaId : value) : M (State W) bool :=
  q <- gets downloadQueue ;;
  lift_result
    (some (fun area => match get_prop area "areaId" with
                       | Ok x => Ok (strict_eq x areaId)
                       | Throw e => Throw e
                       end) q).

(** Lines 109-113. *)
Definition isInFailedAreas (areaName : value) : M (State W) bool :=
  f <- gets failedAreas ;;
  lift_result
    (some (fun area => match get_prop area "areaName" with
                       | Ok x => Ok (strict_eq x areaName)
                       | Throw e => Throw e
                       end) f).

(** *** processQueueStep, lines 118-136 *)

(** An identifier no enclosing scope binds.  The module binds its imports,
    [downloadQueue], [failedAreas], [downloadTimer], [downloadDelay] and its
    functions; the catch clause of [processQueueStep] binds [e] ([areaData]
    is local to the try block).  [areaName] is the parameter of
    [isInFailedAreas] only, so reading it elsewhere throws. *)
Definition unbound_identifier {S} (x : string) : M S value :=
  throw (ReferenceError x).

(** Lines 121-123, up to the call: the entry taken from the front and the
    four arguments of [archiveArea]. *)
Definition next_call : M (State W) (value * (value * value * value * value)) :=
  q <- gets downloadQueue ;;
  let areaData := hd VUndef q in
  modify (fun st => set_downloadQueue (tl q) st) ;;
  name <- lift_result (get_prop areaData "name") ;;
  id <- lift_result (get_prop areaData "id") ;;
  key <- lift_result (get_prop areaData "key") ;;
  data <- lift_result (get_prop areaData "areaData") ;;
  ret (areaData, (name, id, key, data)).

(** Lines 124-130: what is done with the awaited [status]. *)
Definition record_status (areaData status : value) : M (State W) unit :=
  success <- lift_result (get_prop status "success") ;;
  if truthy success then
    msg <- lift_result (get_prop status "msg") ;;
    console_log [msg] ;;
    name <- lift_result (get_prop areaData "name") ;;
    id <- lift_result (get_prop areaData "id") ;;
    key <- lift_result (get_prop areaData "key") ;;
    subArea <- lift_result (get_prop areaData "subArea") ;;
    parentId <- lift_result (get_prop areaData "parentId") ;;
    addArchiveLog name id key subArea parentId
  else
    name <- lift_result (get_prop areaData "name") ;;
    push_failedAreas name ;;
    name <- lift_result (get_prop areaData "name") ;;
    id <- lift_result (get_prop areaData "id") ;;
    key <- lift_result (get_prop areaData "key") ;;
    msg <- lift_result (get_prop status "msg") ;;
    logFailedArchive name id key msg.

(** Lines 131-135: the catch block. *)
Definition step_catch (e : value) : M (State W) unit :=
  areaName <- unbound_identifier "areaName" ;;
  msg <- lift_result (get_prop e "msg") ;;
  console_log [areaName; msg] ;;
  areaName <- unbound_identifier "areaName" ;;
  push_failedAreas areaName ;;
  areaName <- unbound_identifier "areaName" ;;
  msg <- lift_result (get_prop e "msg") ;;
  logFailedArchive areaName (VStr "Unobtained") (VStr "Unobtained") msg.

(** One tick run to its end: the value of the returned promise is [Ok] when
    it resolves and [Throw] when it rejects. *)
Definition processQueueStep : M (State W) unit :=
  q <- gets downloadQueue ;;
  match q with
  | [] => ret tt
  | _ :: _ =>
      try_catch
        (c <- next_call ;;
         let '(areaData, (name, id, key, data)) := c in
         status <- call (archiveArea E name id key data) ;;
         record_status areaData status)
        step_catch
  end.

Fixpoint ticks (n : nat) (st : State W) : State W :=
  match n with
  | 0 => st
  | S n' => ticks n' (snd (processQueueStep st))
  end.

(** *** The drain loop, lines 83-89

    [setInterval(processQueueStep, 0 * 1)] calls [processQueueStep] on every
    timer turn and drops the promise it returns.  A call runs up to its
    [await] within the turn; the rest runs in a later turn, once the promise
    of [archiveArea] has settled.  [tick_begin] is the first half and
    [tick_settle] the second. *)
Definition tick_begin : M (State W) (option (value * (value * value * value * value))) :=
  q <- gets downloadQueue ;;
  match q with
  | [] => ret None
  | _ :: _ =>
      try_catch (c <- next_call ;; ret (Some c))
                (fun e => step_catch e ;; ret None)
  end.

Definition tick_settle (areaData : value) (outcome : Result value) : M (State W) unit :=
  try_catch (status <- lift_result outcome ;; record_status areaData status)
            step_catch.

(** The module state together with the entries whose [archiveArea] call has
    been made and has not settled yet. *)
Record Loop : Type := mkLoop {
  state : State W;
  inflight : list value
}.

(** What a turn of the event loop can be for the drain loop: the interval
    timer fires, the [k]-th outstanding archive call settles, or a caller
    appends items. *)
Inductive Event : Type :=
| Timer
| Settles (k : nat) (outcome : Result value)
| Appends (items : value).

Definition turn (ev : Event) (l : Loop) : Loop :=
  match ev with
  | Timer =>
      match tick_begin (state l) with
      | (Ok (Some (areaData, _)), st) => mkLoop st (inflight l ++ [areaData])
      | (_, st) => mkLoop st (inflight l)
      end
  | Settles k outcome =>
      match nth_error (inflight l) k with
      | Some areaData =>
          mkLoop (snd (tick_settle areaData outcome (state l)))
                 (firstn k (inflight l) ++ skipn (S k) (inflight l))
      | None => l
      end
  | Appends items => mkLoop (appendDownloadQueue items (state l)) (inflight l)
  end.

Definition turns (evs : list Event) (l : Loop) : Loop :=
  fold_left (fun l ev => turn ev l) evs l.

Definition timer_turns (evs : list Event) : nat :=
  List.length (filter (fun ev => match ev with Timer => true | _ => false end) evs).

(** *** queueSearch, lines 24-77 *)

(** [reject] and [resolve] settle the promise once; later calls do nothing,
    and neither ends the function that calls it. *)
Definition reject (reason : value) : M (Frame W) unit :=
  modify (fun fr => match promise fr with
                    | None => mkFrame (module fr) (queueAreas fr) (Some (Rejected reason))
                    | Some _ => fr
                    end).

Definition resolve : M (Frame W) unit :=
  modify (fun fr => match promise fr with
                    | None => mkFrame (module fr) (queueAreas fr) (Some Resolved)
                    | Some _ => fr
                    end).

(** [queueAreas.push(entry)] *)
Definition push_queueAreas (entry : value) : M (Frame W) unit :=
  modify (fun fr => set_queueAreas (queueAreas fr ++ [entry]) fr).

(** The object literal of lines 47-54. *)
Definition root_entry (name id key areaData : value) : value :=
  VObj [("name", name); ("id", id); ("key", key);
        ("subArea", VBool false); ("parentId", VNull); ("areaData", areaData)].

(** How the try block of one area ends normally: by [continue] or by
    reaching its end. *)
Inductive Completion : Type :=
| Continue
| Queued.

(** Lines 57-58: the elements [concat] adds for the sub-areas, none when
    their [length] is falsy. *)
Definition sub_entries (subAreas : value) : list value :=
  if truthy (prop subAreas "length") then concat [] subAreas else [].

(** Lines 44-60: the try block for one area. *)
Definition queueArea_try (area : value) : M (Frame W) Completion :=
  name <- lift_result (get_prop area "name") ;;
  id <- lift_result (get_prop area "id") ;;
  archived <- in_module (call (isAreaArchived E name id)) ;;
  if truthy archived then ret Continue else
  id <- lift_result (get_prop area "id") ;;
  queued <- in_module (isInDownloadQueue id) ;;
  if queued then ret Continue else
  name <- lift_result (get_prop area "name") ;;
  failed <- in_module (isInFailedAreas name) ;;
  if failed then ret Continue else
  id <- lift_result (get_prop area "id") ;;
  identifiers <- in_module (call (getAreaIdentifiers E id (VBool false))) ;;
  name <- lift_result (get_prop area "name") ;;
  console_log [VStr "Queueing"; name] ;;
  name <- lift_result (get_prop area "name") ;;
  iid <- lift_result (get_prop identifiers "id") ;;
  ikey <- lift_result (get_prop identifiers "key") ;;
  idata <- lift_result (get_prop identifiers "areaData") ;;
  push_queueAreas (root_entry name iid ikey idata) ;;
  iid <- lift_result (get_prop identifiers "id") ;;
  subAreas <- in_module (call (getSubAreas E iid)) ;;
  len <- lift_result (get_prop subAreas "length") ;;
  (if truthy len then
     modify (fun fr => set_queueAreas (concat (queueAreas fr) subAreas) fr) ;;
     console_log [len]
   else ret tt) ;;
  ret Queued.

(** Lines 61-65: the catch block for one area. *)
Definition queueArea_catch (area e : value) : M (Frame W) Completion :=
  console_log [e] ;;
  name <- lift_result (get_prop area "name") ;;
  in_module (push_failedAreas name) ;;
  name <- lift_result (get_prop area "name") ;;
  areaId <- lift_result (get_prop area "areaId") ;;
  areaKey <- lift_result (get_prop area "areaKey") ;;
  in_module (logFailedArchive name areaId areaKey e) ;;
  ret Continue.

(** Lines 42-65: the body of the loop for [results.areas[i]]. *)
Definition queueArea (area : value) : M (Frame W) Completion :=
  lastAreaId <- lift_result (get_prop area "id") ;;
  try_catch (queueArea_try area) (queueArea_catch area).

(** Line 41: the loop, from index [i], with [n] turns left. *)
Fixpoint for_areas (areas : value) (n i : nat) : M (Frame W) unit :=
  match n with
  | 0 => ret tt
  | S n' => queueArea (get_index areas i) ;; for_areas areas n' (S i)
  end.

Definition response_body (response : option Body) : Result Body :=
  match response with
  | None => Throw (TypeError "Cannot read properties of undefined (reading 'body')")
  | Some b => Ok b
  end.

(** [JSON.parse(body)]; [JSON.parse(undefined)] throws like any other text
    that is not JSON. *)
Definition JSON_parse (body : Body) : Result value :=
  match body with
  | Text (Some v) => Ok v
  | Text None | NoBody => Throw SyntaxError
  end.

Definition missing_body (response : option Body) : bool :=
  match response with
  | None | Some NoBody => true
  | Some (Text _) => false
  end.

(** Lines 33-74: the callback given to [request]. *)
Definition search_callback (error : value) (response : option Body) : M (Frame W) unit :=
  try_catch
    ((if truthy error then reject error else ret tt) ;;
     (if missing_body response then reject (VStr "Missing body") else ret tt) ;;
     body <- lift_result (response_body response) ;;
     results <- lift_result (JSON_parse body) ;;
     err <- lift_result (get_prop results "error") ;;
     (if truthy err then reject (VStr "Missing body") else ret tt) ;;
     areas <- lift_result (get_prop results "areas") ;;
     noAreas <- (if is_undefined areas then ret true
                 else len <- lift_result (get_prop areas "length") ;;
                      ret (is_undefined len)) ;;
     (if noAreas then reject (VStr "No areas found in response") else ret tt) ;;
     modify (set_queueAreas []) ;;
     areas <- lift_result (get_prop results "areas") ;;
     len <- lift_result (get_prop areas "length") ;;
     for_areas areas (loop_bound len) 0 ;;
     queued <- gets queueAreas ;;
     (match queued with
      | [] => ret tt
      | _ :: _ =>
          in_module (modify (fun st => set_downloadQueue (downloadQueue st ++ queued) st)) ;;
          console_log []
      end) ;;
     resolve)
    reject.

(** [queueSearch(query)] run to the end of the callback: how the returned
    promise has settled ([None] if it has not) and the module state. *)
Definition queueSearch (query : string) (st : State W) : option Settlement * State W :=
  let '((error, response), w) := request E (toLowerCase query) (world st) in
  let fr := snd (search_callback error response (mkFrame (set_world w st) [] None)) in
  (promise fr, module fr).

(** The frame in which the loop reaches [results.areas[k]]. *)
Fixpoint each_area (items : list value) : M (Frame W) unit :=
  match items with
  | [] => ret tt
  | area :: rest => queueArea area ;; each_area rest
  end.

Definition frame_before (items : list value) (k : nat) (fr : Frame W) : Frame W :=
  snd (each_area (firstn k items) fr).

(** The search request of [query] in [st] succeeds and its response lists
    [items], every one of them an area whose properties can be read; [w] is
    the world after the request. *)
Definition lists_areas (query : string) (st : State W) (items : list value) (w : W) : Prop :=
  exists error results err,
    request E (toLowerCase query) (world st) = ((error, Some (Text (Some results))), w) /\
    truthy error = false /\
    get_prop results "error" = Ok err /\ truthy err = false /\
    get_prop results "areas" = Ok (VArr items) /\
    forallb readable items = true.


(** The collaborators hand out data of the documented shape: sub-areas are
    documented entries and the areas of a search response carry names. *)
Definition documented_env : Prop :=
  (forall id w r w', getSubAreas E id w = (Ok r, w') ->
     exists items, r = VArr items /\ forallb documented_entry items = true) /\
  (forall term w error response w',
     request E term w = ((error, response), w') -> named_areas response = true).

(** The states the module's operations lead to, from the empty one, when
    callers append entries of the documented shape. *)
Inductive reachable : State W -> Prop :=
| reach_initial (w : W) : reachable (initial w)
| reach_append (items : list value) (st : State W) :
    reachable st -> forallb documented_entry items = true ->
    reachable (appendDownloadQueue (VArr items) st)
| reach_search (query : string) (st : State W) :
    reachable st -> reachable (snd (queueSearch query st))
| reach_tick (st : State W) :
    reachable st -> reachable (snd (processQueueStep st)).

End Operations.

Arguments Loop W : clear implicits.

(** ** Discovery of one area, seen from the collaborators *)

(** The archive index does not hold the area, whenever it is asked. *)
Definition not_archived {W} (E : Env W) (area : value) : Prop :=
  forall w, exists archived w',
    isAreaArchived E (prop area "name") (prop area "id") w = (Ok archived, w') /\
    truthy archived = false.

(** Discovery of the area succeeds whenever it is tried: the area is not
    archived, its identifiers resolve to a readable value and the sub-areas
    of the resolved id resolve to a readable value. *)
Definition resolvable {W} (E : Env W) (area : value) : Prop :=
  not_archived E area /\
  forall w, exists identifiers w',
    getAreaIdentifiers E (prop area "id") (VBool false) w = (Ok identifiers, w') /\
    readable identifiers = true /\
    forall w2, exists subAreas w3,
      getSubAreas E (prop identifiers "id") w2 = (Ok subAreas, w3) /\
      readable subAreas = true.

(** Discovery of the area fails with [e] whenever it is tried: the area is
    not archived, and either its identifiers cannot be resolved, or they
    can and its sub-areas cannot. *)
Definition discovery_fails {W} (E : Env W) (area e : value) : Prop :=
  not_archived E area /\
  ((forall w, exists w',
      getAreaIdentifiers E (prop area "id") (VBool false) w = (Throw e, w')) \/
   (forall w, exists identifiers w',
      getAreaIdentifiers E (prop area "id") (VBool false) w = (Ok identifiers, w') /\
      readable identifiers = true /\
      forall w2, exists w3,
        getSubAreas E (prop identifiers "id") w2 = (Throw e, w3))).

(** ** The Dedup Index as the design states it *)

(** [queued(id)]: some entry of the queue has this [id]. *)
Definition spec_queued (id : value) (queue : list value) : bool :=
  existsb (fun entry => strict_eq (prop entry "id") id) queue.

(** [previouslyFailed(name)]: the name is in the failed set. *)
Definition spec_previouslyFailed (name : value) (failed : list value) : bool :=
  existsb (fun x => strict_eq x name) failed.

(** No [id] occurs twice among the pending entries. *)
Fixpoint distinct_ids (queue : list value) : bool :=
  match queue with
  | [] => true
  | entry :: rest => negb (spec_queued (prop entry "id") rest) && distinct_ids rest
  end.

(** ** Stub collaborators for the worked examples *)

Definition area (name id : string) : value :=
  VObj [("name", VStr name); ("id", VStr id)].

Definition search_result (areas : list value) : option Body :=
  Some (Text (Some (VObj [("areas", VArr areas)]))).

Definition identifiers_of (id : value) : value :=
  VObj [("id", id); ("key", VStr "key"); ("areaData", VObj [])].

Definition child (name id : string) (parentId : value) : value :=
  VObj [("name", VStr name); ("id", VStr id); ("key", VStr "key");
        ("subArea", VBool true); ("parentId", parentId); ("areaData", VObj [])].

(** A service that answers every search with the body [results], has
    archived nothing, resolves every id to itself except ["broken"], and
    knows one sub-area, of ["castle-id"].  Archiving succeeds for ["A"],
    reports a timeout for ["B"] and throws for anything else. *)
Definition service (results : value) : Env unit := {|
  request := fun _ w => ((VNull, Some (Text (Some results))), w);
  isAreaArchived := fun _ _ w => (Ok (VBool false), w);
  getAreaIdentifiers := fun id _ w =>
    (if strict_eq id (VStr "broken") then Throw (VError "Error" "no identifiers")
     else Ok (identifiers_of id), w);
  getSubAreas := fun id w =>
    (Ok (VArr (if strict_eq id (VStr "castle-id")
               then [child "castle cellar" "cellar-id" id] else [])), w);
  archiveArea := fun _ id _ _ w =>
    (if strict_eq id (VStr "A") then
       Ok (VObj [("success", VBool true); ("msg", VStr "archived")])
     else if strict_eq id (VStr "B") then
       Ok (VObj [("success", VBool false); ("msg", VStr "timeout")])
     else Throw (VError "Error" "connection reset"), w)
|}.

(** The service when its answer lists [areas]. *)
Definition stub (areas : list value) : Env unit :=
  service (VObj [("areas", VArr areas)]).

(** The listings and states of the worked examples. *)
Definition castle_twice : list value := [area "castle" "1"; area "castle" "1"].

Definition castle_B : Env unit := stub [area "castle" "B"].

Definition three_areas : list value :=
  [area "castle" "castle-id"; area "ruin" "broken"; area "tower" "2"].

(** Queues of two entries A and B: entries that carry an id and no name,
    entries with a name and an id, and full queue entries. *)
Definition queue_ids_only : State unit :=
  mkState [VObj [("id", VStr "A")]; VObj [("id", VStr "B")]] [] [] tt.

Definition queue_named : State unit :=
  mkState [area "A" "A"; area "B" "B"] [] [] tt.

Definition queue_entries : State unit :=
  mkState [root_entry (VStr "A") (VStr "A") (VStr "key") (VObj []);
           root_entry (VStr "B") (VStr "B") (VStr "key") (VObj [])] [] [] tt.

(** A listing whose second area has no name and cannot be resolved. *)
Definition nameless_failure : list value :=
  [area "castle" "castle-id"; VObj [("id", VStr "broken")]; area "tower" "2"].

(** The service when its answer carries an [error] field next to the areas,
    and when [areas] is a text instead of a list. *)
Definition stub_error_field (areas : list value) : Env unit :=
  service (VObj [("error", VStr "busy"); ("areas", VArr areas)]).

Definition stub_text_areas : Env unit :=
  service (VObj [("areas", VStr "ab")]).

(** ** The rest of the module *)

(** The name a failure record was written for. *)
Definition failure_name (r : RecorderCall) : option value :=
  match r with
  | LogFailedArchive name _ _ _ => Some name
  | AddArchiveLog _ _ _ _ _ => None
  end.

(** Modelled from the spec: [createArchiveLog], [rotateRunOutputLog] and
    [rotateFailedDownloadsLog] of utils.mjs are the setup and rotation hooks
    of the Outcome Recorder; a call is kept in the order it was made. *)
Inductive SetupCall : Type :=
| CreateArchiveLog
| RotateRunOutputLog
| RotateFailedDownloadsLog.

(** What [startDownloadQueue] works on: the hooks called so far, the
    interval timers that are active, each with its period in milliseconds
    and known by its position, and the module variable [downloadTimer]
    ([None] for the initial [null]). *)
Record Host : Type := mkHost {
  setup_calls : list SetupCall;
  intervals : list Z;
  downloadTimer : option nat
}.

(** Line 7. *)
Definition boot : Host := mkHost [] [] None.

(** [setInterval(callback, ms)]: one more active timer, whose handle is
    returned. *)
Definition setInterval (ms : Z) (h : Host) : nat * Host :=
  (List.length (intervals h),
   mkHost (setup_calls h) (intervals h ++ [ms]) (downloadTimer h)).

(** Line 8. *)
Definition downloadDelay : Z := 1.

(** Lines 83-89; [delay] only reaches the log message. *)
Definition startDownloadQueue (delay : Z) (h : Host) : Host :=
  let h1 := mkHost (setup_calls h ++ [CreateArchiveLog; RotateRunOutputLog;
                                      RotateFailedDownloadsLog])
                   (intervals h) (downloadTimer h) in
  let (timer, h2) := setInterval (0 * 1) h1 in
  mkHost (setup_calls h2) (intervals h2) (Some timer).

(** A service like [service] whose archive index holds every area. *)
Definition archived_service (results : value) : Env unit := {|
  request := request (service results);
  isAreaArchived := fun _ _ w => (Ok (VBool true), w);
  getAreaIdentifiers := getAreaIdentifiers (service results);
  getSubAreas := getSubAreas (service results);
  archiveArea := archiveArea (service results)
|}.

(** A service that cannot be reached: [request] fails with an error and
    hands over no response. *)
Definition offline : Env unit := {|
  request := fun _ w => ((VError "Error" "ECONNRESET", None), w);
  isAreaArchived := isAreaArchived (service (VObj []));
  getAreaIdentifiers := getAreaIdentifiers (service (VObj []));
  getSubAreas := getSubAreas (service (VObj []));
  archiveArea := archiveArea (service (VObj []))
|}.

(** ** Properties *)

Lemma get_prop_readable (v : value) (k : string) :
  readable v = true -> get_prop v k = Ok (prop v k).
Proof.
  unfold prop; destruct v; simpl; intros H; try discriminate H; reflexivity.
Qed.

Lemma get_prop_ok_readable (v x : value) (k : string) :
  get_prop v k = Ok x -> readable v = true /\ prop v k = x.
Proof.
  unfold prop; intros H; rewrite H; split; [ | reflexivity].
  destruct v; simpl in *; try discriminate H; reflexivity.
Qed.

(** *** Invariants of monadic code *)

Section Keeps.
Context {S : Type} (I : S -> Prop).

Lemma keeps_ret {A} (a : A) : keeps I (ret a).
Proof. intros s H; exact H. Qed.

Lemma keeps_throw {A} (e : value) : keeps I (@throw S A e).
Proof. intros s H; exact H. Qed.

Lemma keeps_lift_result {A} (r : Result A) : keeps I (lift_result r).
Proof. intros s H; exact H. Qed.

Lemma keeps_gets {A} (f : S -> A) : keeps I (gets f).
Proof. intros s H; exact H. Qed.

Lemma keeps_console_log (vs : list value) : keeps I (console_log vs).
Proof. intros s H; exact H. Qed.

Lemma keeps_modify (f : S -> S) : (forall s, I s -> I (f s)) -> keeps I (modify f).
Proof. intros Hf s H; apply Hf, H. Qed.

Lemma keeps_bind {A B} (c : M S A) (k : A -> M S B) :
  keeps I c -> (forall a, keeps I (k a)) -> keeps I (bind c k).
Proof.
  intros Hc Hk s H; unfold bind.
  specialize (Hc s H). destruct (c s) as [[a | e] s1]; simpl in *.
  - apply Hk, Hc.
  - exact Hc.
Qed.

(** After reading a property the continuation knows what was read. *)
Lemma keeps_bind_result {A B} (r : Result A) (k : A -> M S B) :
  (forall a, r = Ok a -> keeps I (k a)) -> keeps I (bind (lift_result r) k).
Proof.
  intros Hk s H; unfold bind, lift_result.
  destruct r as [a | e]; simpl.
  - apply (Hk a eq_refl), H.
  - exact H.
Qed.

Lemma keeps_try_catch {A} (body : M S A) (handler : value -> M S A) :
  keeps I body -> (forall e, keeps I (handler e)) -> keeps I (try_catch body handler).
Proof.
  intros Hb Hh s H; unfold try_catch.
  specialize (Hb s H). destruct (body s) as [[a | e] s1]; simpl in *.
  - exact Hb.
  - apply Hh, Hb.
Qed.

(** A try block whose first statement establishes [I]. *)
Lemma keeps_after {A B} (c : M S A) (k : A -> M S B) (handler : value -> M S B) (s : S) :
  I (snd (c s)) ->
  (forall a, fst (c s) = Ok a -> keeps I (k a)) ->
  (forall e, keeps I (handler e)) ->
  I (snd (try_catch (bind c k) handler s)).
Proof.
  intros Hc Hk Hh; unfold try_catch, bind.
  destruct (c s) as [[a | e] s1]; simpl in Hc.
  - specialize (Hk a eq_refl s1 Hc). destruct (k a s1) as [[b | e] s2]; simpl in *.
    + exact Hk.
    + apply Hh, Hk.
  - apply Hh, Hc.
Qed.

Lemma keeps_if {A} (b : bool) (c1 c2 : M S A) :
  keeps I c1 -> keeps I c2 -> keeps I (if b then c1 else c2).
Proof. destruct b; auto. Qed.

End Keeps.

Create HintDb keeps.
#[local] Hint Resolve keeps_ret keeps_throw keeps_lift_result keeps_gets
  keeps_console_log keeps_if : keeps.

Section Properties.
Context {W : Type} (E : Env W).

(** Statements on the module state, seen from a [queueSearch] frame. *)
Lemma keeps_in_module {A} (I : Frame W -> Prop) (c : M (State W) A) :
  (forall q p, keeps (fun st => I (mkFrame st q p)) c) -> keeps I (in_module c).
Proof.
  intros Hc [st q p] H; unfold in_module; simpl.
  specialize (Hc q p st H). destruct (c st) as [r st1]; exact Hc.
Qed.

Lemma keeps_call (I : State W -> Prop) (f : W -> Result value * W) :
  (forall st w, I st -> I (set_world w st)) -> keeps I (call f).
Proof.
  intros Hw st H; unfold call. destruct (f (world st)) as [r w]; simpl.
  apply Hw, H.
Qed.

(** After a call the continuation knows what the collaborator answered. *)
Lemma keeps_bind_call {B} (I : Frame W -> Prop) (f : W -> Result value * W)
      (k : value -> M (Frame W) B) :
  (forall st q p w, I (mkFrame st q p) -> I (mkFrame (set_world w st) q p)) ->
  (forall a w w', f w = (Ok a, w') -> keeps I (k a)) ->
  keeps I (bind (in_module (call f)) k).
Proof.
  intros Hw Hk [st q p] H; unfold bind, in_module, call; simpl.
  destruct (f (world st)) as [[a | e] w'] eqn:Hf; simpl.
  - apply (Hk a _ _ Hf), Hw, H.
  - apply Hw, H.
Qed.

(** The two dedup predicates only read. *)
Lemma isInDownloadQueue_reads (areaId : value) (st : State W) :
  snd (isInDownloadQueue areaId st) = st.
Proof. reflexivity. Qed.

Lemma isInFailedAreas_reads (areaName : value) (st : State W) :
  snd (isInFailedAreas areaName st) = st.
Proof. reflexivity. Qed.

Lemma keeps_isInDownloadQueue (I : State W -> Prop) (areaId : value) :
  keeps I (isInDownloadQueue areaId).
Proof. intros st H; rewrite isInDownloadQueue_reads; exact H. Qed.

Lemma keeps_isInFailedAreas (I : State W -> Prop) (areaName : value) :
  keeps I (isInFailedAreas areaName).
Proof. intros st H; rewrite isInFailedAreas_reads; exact H. Qed.

(** *** One tick *)

(** A tick on an empty queue does nothing. *)
Lemma processQueueStep_empty (st : State W) :
  downloadQueue st = [] -> processQueueStep E st = (Ok tt, st).
Proof.
  intros H; unfold processQueueStep, bind, gets; rewrite H; reflexivity.
Qed.

(** The three ways a tick on a readable front entry ends, by the outcome of
    the archive call. *)
Lemma processQueueStep_archived (st : State W) (entry : value) (rest : list value)
      (status success : value) (w : W) :
  downloadQueue st = entry :: rest ->
  readable entry = true ->
  archiveArea E (prop entry "name") (prop entry "id") (prop entry "key")
              (prop entry "areaData") (world st) = (Ok status, w) ->
  get_prop status "success" = Ok success ->
  truthy success = true ->
  processQueueStep E st =
    (Ok tt,
     mkState rest (failedAreas st)
             (recorder st ++ [AddArchiveLog (prop entry "name") (prop entry "id")
                                (prop entry "key") (prop entry "subArea")
                                (prop entry "parentId")])
             w).
Proof.
  intros Hq Hr Ha Hs Ht.
  destruct (get_prop_ok_readable _ _ _ Hs) as [Hrs _].
  unfold processQueueStep, bind, gets, try_catch, next_call, bind, gets, modify,
    lift_result, ret, call, record_status, bind, lift_result.
  cbv beta iota; rewrite Hq; cbv beta iota; rewrite Hq; simpl hd; simpl tl.
  rewrite !(get_prop_readable entry) by assumption.
  simpl world. rewrite Ha, Hs, Ht.
  rewrite (get_prop_readable status) by assumption.
  reflexivity.
Qed.

Lemma processQueueStep_failed (st : State W) (entry : value) (rest : list value)
      (status success : value) (w : W) :
  downloadQueue st = entry :: rest ->
  readable entry = true ->
  archiveArea E (prop entry "name") (prop entry "id") (prop entry "key")
              (prop entry "areaData") (world st) = (Ok status, w) ->
  get_prop status "success" = Ok success ->
  truthy success = false ->
  processQueueStep E st =
    (Ok tt,
     mkState rest (failedAreas st ++ [prop entry "name"])
             (recorder st ++ [LogFailedArchive (prop entry "name") (prop entry "id")
                                (prop entry "key") (prop status "msg")])
             w).
Proof.
  intros Hq Hr Ha Hs Ht.
  destruct (get_prop_ok_readable _ _ _ Hs) as [Hrs _].
  unfold processQueueStep, bind, gets, try_catch, next_call, bind, gets, modify,
    lift_result, ret, call, record_status, bind, lift_result.
  cbv beta iota; rewrite Hq; cbv beta iota; rewrite Hq; simpl hd; simpl tl.
  rewrite !(get_prop_readable entry) by assumption.
  simpl world. rewrite Ha, Hs, Ht.
  rewrite (get_prop_readable status) by assumption.
  reflexivity.
Qed.

Lemma processQueueStep_thrown (st : State W) (entry : value) (rest : list value)
      (e : value) (w : W) :
  downloadQueue st = entry :: rest ->
  readable entry = true ->
  archiveArea E (prop entry "name") (prop entry "id") (prop entry "key")
              (prop entry "areaData") (world st) = (Throw e, w) ->
  processQueueStep E st =
    (Throw (ReferenceError "areaName"),
     mkState rest (failedAreas st) (recorder st) w).
Proof.
  intros Hq Hr Ha.
  unfold processQueueStep, bind, gets, try_catch, next_call, bind, gets, modify,
    lift_result, ret, call, record_status, bind, lift_result.
  cbv beta iota; rewrite Hq; cbv beta iota; rewrite Hq; simpl hd; simpl tl.
  rewrite !(get_prop_readable entry) by assumption.
  simpl world. rewrite Ha.
  reflexivity.
Qed.

(** *** The queue under a tick *)

Lemma keeps_queue_record_status (queue : list value) (areaData status : value) :
  keeps (fun st : State W => downloadQueue st = queue) (record_status areaData status).
Proof.
  unfold record_status, addArchiveLog, push_failedAreas, logFailedArchive.
  apply keeps_bind_result; intros success _.
  apply keeps_if;
    repeat (first [ apply keeps_bind_result; intros ? _
                  | apply keeps_bind; [ | intros ? ]
                  | apply keeps_modify; intros st H; exact H
                  | apply keeps_console_log ]).
Qed.

Lemma keeps_queue_step_catch (queue : list value) (e : value) :
  keeps (fun st : State W => downloadQueue st = queue) (step_catch e).
Proof.
  unfold step_catch, unbound_identifier.
  apply keeps_bind; [ apply keeps_throw | intros ? ].
  apply keeps_bind_result; intros ? _.
  apply keeps_bind; [ apply keeps_console_log | intros ? ].
  apply keeps_bind; [ apply keeps_throw | intros ? ].
  apply keeps_bind; [ apply keeps_modify; intros st H; exact H | intros ? ].
  apply keeps_bind; [ apply keeps_throw | intros ? ].
  apply keeps_bind_result; intros ? _.
  apply keeps_modify; intros st H; exact H.
Qed.

(** Taking the front entry leaves the tail, whether or not reading the
    entry's properties throws. *)
Lemma next_call_queue (st : State W) :
  downloadQueue (snd (next_call st)) = tl (downloadQueue st) /\
  (forall c, fst (next_call st) = Ok c -> fst c = hd VUndef (downloadQueue st)).
Proof.
  unfold next_call, bind, gets, modify, lift_result, ret; cbv beta iota.
  destruct (get_prop (hd VUndef (downloadQueue st)) "name"); simpl;
    [ | split; [reflexivity | discriminate] ].
  destruct (get_prop (hd VUndef (downloadQueue st)) "id"); simpl;
    [ | split; [reflexivity | discriminate] ].
  destruct (get_prop (hd VUndef (downloadQueue st)) "key"); simpl;
    [ | split; [reflexivity | discriminate] ].
  destruct (get_prop (hd VUndef (downloadQueue st)) "areaData"); simpl;
    [ | split; [reflexivity | discriminate] ].
  split; [reflexivity | intros c Hc; injection Hc as <-; reflexivity].
Qed.

(** Every tick removes the front entry and nothing else, and puts nothing
    back, however the archive call ends. *)
Lemma processQueueStep_queue (st : State W) :
  downloadQueue (snd (processQueueStep E st)) = tl (downloadQueue st).
Proof.
  destruct (downloadQueue st) as [ | entry rest] eqn:Hq.
  - rewrite processQueueStep_empty by assumption. exact Hq.
  - unfold processQueueStep, bind at 1, gets at 1; cbv beta iota; rewrite Hq.
    apply (keeps_after (fun s => downloadQueue s = tl (entry :: rest))).
    + rewrite <- Hq. apply next_call_queue.
    + intros [areaData [[[name id] key] data]] _.
      apply keeps_bind.
      * apply keeps_call; intros s w H; exact H.
      * intros status; apply keeps_queue_record_status.
    + intros e; apply keeps_queue_step_catch.
Qed.

(** *** The drain loop *)

(** Run to its end without anything in between, a tick is its first half,
    the archive call, and its second half. *)
Lemma processQueueStep_halves (st : State W) :
  processQueueStep E st =
  match tick_begin st with
  | (Ok (Some (areaData, (name, id, key, data))), st1) =>
      let (outcome, w) := archiveArea E name id key data (world st1) in
      tick_settle areaData outcome (set_world w st1)
  | (Ok None, st1) => (Ok tt, st1)
  | (Throw e, st1) => (Throw e, st1)
  end.
Proof.
  unfold processQueueStep, tick_begin, tick_settle, try_catch, bind, gets, ret,
    call, lift_result.
  destruct (downloadQueue st) as [ | entry rest]; [reflexivity | ].
  destruct (next_call st) as [[[areaData [[[name id] key] data]] | e] st1].
  - destruct (archiveArea E name id key data (world st1)) as [[status | e] w];
      reflexivity.
  - destruct (step_catch e st1) as [[[] | e'] st2]; reflexivity.
Qed.

Lemma turn_inflight (ev : Event) (l : Loop W) :
  List.length (inflight (turn ev l)) <=
  List.length (inflight l) + match ev with Timer => 1 | _ => 0 end.
Proof.
  destruct ev as [ | k outcome | items]; unfold turn.
  - destruct (tick_begin (state l)) as [[[[areaData args] | ] | e] st1];
      cbn [inflight]; rewrite ?length_app; simpl; lia.
  - destruct (nth_error (inflight l) k) as [areaData | ] eqn:Hk; cbn [inflight]; [ | lia].
    rewrite length_app, length_firstn, length_skipn. lia.
  - cbn [inflight]; lia.
Qed.

Lemma turns_inflight (evs : list Event) (l : Loop W) :
  List.length (inflight (turns evs l)) <= List.length (inflight l) + timer_turns evs.
Proof.
  revert l; induction evs as [ | ev evs IH]; intros l; simpl.
  - unfold timer_turns; simpl; lia.
  - unfold turns in *; simpl. specialize (IH (turn ev l)).
    pose proof (turn_inflight ev l) as Ht.
    unfold timer_turns in *; simpl.
    destruct ev; simpl in *; lia.
Qed.

(** A timer turn starts the archive call of the front entry, or none. *)
Lemma timer_turn_front (l : Loop W) :
  inflight (turn Timer l) = inflight l \/
  exists entry rest,
    downloadQueue (state l) = entry :: rest /\
    inflight (turn Timer l) = inflight l ++ [entry] /\
    downloadQueue (state (turn Timer l)) = rest.
Proof.
  simpl. unfold tick_begin, try_catch, bind, gets, ret.
  destruct (next_call_queue (state l)) as [Hn Hc].
  destruct (downloadQueue (state l)) as [ | entry rest] eqn:Hq;
    [left; reflexivity | ].
  simpl in Hn, Hc.
  destruct (next_call (state l)) as [[[areaData args] | e] st1]; simpl in Hn.
  - right. exists entry, rest.
    specialize (Hc _ eq_refl); simpl in Hc; subst areaData. auto.
  - destruct (step_catch e st1) as [[[] | e'] st2]; simpl; left; reflexivity.
Qed.

(** *** One area of a search result *)

Lemma prop_of_get_prop (v x : value) (k : string) :
  get_prop v k = Ok x -> x = prop v k.
Proof. intros H; unfold prop; rewrite H; reflexivity. Qed.

(** What a property of the frame has to survive for one turn of the loop to
    keep it: the world moving on, the root entry of this area and the
    sub-areas the service returned being added to [queueAreas], the name of
    this area being added to [failedAreas], a record being written. *)
Section OneArea.
Variable area : value.
Variable I : Frame W -> Prop.
Hypothesis I_world : forall st q p w,
  I (mkFrame st q p) -> I (mkFrame (set_world w st) q p).
Hypothesis I_push : forall fr id key data,
  I fr -> I (set_queueAreas (queueAreas fr ++ [root_entry (prop area "name") id key data]) fr).
Hypothesis I_concat : forall fr id w subAreas w',
  getSubAreas E id w = (Ok subAreas, w') ->
  I fr -> I (set_queueAreas (concat (queueAreas fr) subAreas) fr).
Hypothesis I_failed : forall st q p,
  I (mkFrame st q p) ->
  I (mkFrame (set_failedAreas (failedAreas st ++ [prop area "name"]) st) q p).
Hypothesis I_recorder : forall st q p r,
  I (mkFrame st q p) -> I (mkFrame (set_recorder (recorder st ++ [r]) st) q p).

Lemma keeps_queueArea_try : keeps I (queueArea_try E area).
Proof.
  unfold queueArea_try.
  apply keeps_bind_result; intros name0 _.
  apply keeps_bind_result; intros id0 _.
  apply keeps_bind_call; [exact I_world | intros archived _ _ _].
  apply keeps_if; [apply keeps_ret | ].
  apply keeps_bind_result; intros id1 _.
  apply keeps_bind;
    [apply keeps_in_module; intros; apply keeps_isInDownloadQueue | intros queued].
  apply keeps_if; [apply keeps_ret | ].
  apply keeps_bind_result; intros name1 _.
  apply keeps_bind;
    [apply keeps_in_module; intros; apply keeps_isInFailedAreas | intros failed].
  apply keeps_if; [apply keeps_ret | ].
  apply keeps_bind_result; intros id2 _.
  apply keeps_bind_call; [exact I_world | intros identifiers _ _ _].
  apply keeps_bind_result; intros name2 _.
  apply keeps_bind; [apply keeps_console_log | intros _].
  apply keeps_bind_result; intros name Hname.
  apply keeps_bind_result; intros iid _.
  apply keeps_bind_result; intros ikey _.
  apply keeps_bind_result; intros idata _.
  apply keeps_bind.
  { apply keeps_modify; intros fr H.
    rewrite (prop_of_get_prop _ _ _ Hname). apply I_push, H. }
  intros _.
  apply keeps_bind_result; intros iid1 _.
  apply keeps_bind_call; [exact I_world | intros subAreas w w' Hsub].
  apply keeps_bind_result; intros len _.
  apply keeps_bind; [ | intros _; apply keeps_ret].
  apply keeps_if; [ | apply keeps_ret].
  apply keeps_bind; [ | intros _; apply keeps_console_log].
  apply keeps_modify; intros fr H. apply (I_concat _ _ _ _ _ Hsub), H.
Qed.

Lemma keeps_queueArea_catch (e : value) : keeps I (queueArea_catch area e).
Proof.
  unfold queueArea_catch.
  apply keeps_bind; [apply keeps_console_log | intros _].
  apply keeps_bind_result; intros name Hname.
  apply keeps_bind.
  { apply keeps_in_module; intros q p. apply keeps_modify; intros st H.
    rewrite (prop_of_get_prop _ _ _ Hname). apply I_failed, H. }
  intros _.
  apply keeps_bind_result; intros name1 _.
  apply keeps_bind_result; intros areaId _.
  apply keeps_bind_result; intros areaKey _.
  apply keeps_bind; [ | intros _; apply keeps_ret].
  apply keeps_in_module; intros q p. apply keeps_modify; intros st H.
  apply I_recorder, H.
Qed.

Lemma keeps_queueArea : keeps I (queueArea E area).
Proof.
  unfold queueArea.
  apply keeps_bind_result; intros lastAreaId _.
  apply keeps_try_catch; [apply keeps_queueArea_try | apply keeps_queueArea_catch].
Qed.

End OneArea.

(** A readable area never makes the loop body throw: what its try block
    throws is caught, its name recorded as failed and a record written. *)
Lemma queueArea_completed (area : value) (fr fr' : Frame W) (c : Completion) :
  readable area = true ->
  queueArea_try E area fr = (Ok c, fr') ->
  queueArea E area fr = (Ok c, fr').
Proof.
  intros Hr Ht. unfold queueArea, bind, lift_result, try_catch.
  rewrite (get_prop_readable area) by assumption. rewrite Ht. reflexivity.
Qed.

Lemma queueArea_caught (area e : value) (fr fr' : Frame W) :
  readable area = true ->
  queueArea_try E area fr = (Throw e, fr') ->
  queueArea E area fr =
    (Ok Continue,
     mkFrame
       (mkState (downloadQueue (module fr'))
                (failedAreas (module fr') ++ [prop area "name"])
                (recorder (module fr') ++
                   [LogFailedArchive (prop area "name") (prop area "areaId")
                                     (prop area "areaKey") e])
                (world (module fr')))
       (queueAreas fr') (promise fr')).
Proof.
  intros Hr Ht. unfold queueArea, bind, lift_result, try_catch.
  rewrite (get_prop_readable area) by assumption. rewrite Ht.
  unfold queueArea_catch, bind, lift_result, console_log, ret, in_module,
    push_failedAreas, logFailedArchive, modify.
  rewrite !(get_prop_readable area) by assumption.
  reflexivity.
Qed.

Lemma queueArea_ok (area : value) (fr : Frame W) :
  readable area = true -> exists c, fst (queueArea E area fr) = Ok c.
Proof.
  intros Hr. destruct (queueArea_try E area fr) as [[c | e] fr'] eqn:Ht.
  - exists c. rewrite (queueArea_completed _ _ _ _ Hr Ht). reflexivity.
  - exists Continue. rewrite (queueArea_caught _ _ _ _ Hr Ht). reflexivity.
Qed.

(** *** The loop over the areas *)

Lemma each_area_ok (items : list value) (fr : Frame W) :
  forallb readable items = true -> fst (each_area E items fr) = Ok tt.
Proof.
  revert fr; induction items as [ | area rest IH]; intros fr H; [reflexivity | ].
  simpl in H; apply andb_prop in H as [Hr Hrest].
  simpl; unfold bind.
  destruct (queueArea_ok area fr Hr) as [c Hc].
  destruct (queueArea E area fr) as [r fr1]; simpl in Hc; subst r.
  apply IH, Hrest.
Qed.

Lemma each_area_app (first rest : list value) (fr : Frame W) :
  forallb readable first = true ->
  each_area E (first ++ rest) fr = each_area E rest (snd (each_area E first fr)).
Proof.
  revert fr; induction first as [ | area first IH]; intros fr H; [reflexivity | ].
  simpl in H; apply andb_prop in H as [Hr Hfirst].
  simpl; unfold bind.
  destruct (queueArea_ok area fr Hr) as [c Hc].
  destruct (queueArea E area fr) as [r fr1]; simpl in Hc; subst r.
  apply IH, Hfirst.
Qed.

(** Over an array the indexed loop visits the elements in order. *)
Lemma for_areas_array (done items : list value) (fr : Frame W) :
  for_areas E (VArr (done ++ items)) (List.length items) (List.length done) fr =
  each_area E items fr.
Proof.
  revert done fr; induction items as [ | area rest IH]; intros done fr; [reflexivity | ].
  simpl for_areas; simpl each_area; unfold bind.
  rewrite nth_middle.
  destruct (queueArea E area fr) as [[c | e] fr1]; [ | reflexivity].
  specialize (IH (done ++ [area]) fr1).
  rewrite <- app_assoc in IH; simpl in IH.
  rewrite length_app in IH; simpl in IH.
  rewrite Nat.add_1_r in IH. exact IH.
Qed.

Lemma keeps_each_area (I : Frame W -> Prop) (items : list value) :
  (forall area, In area items -> keeps I (queueArea E area)) ->
  keeps I (each_area E items).
Proof.
  induction items as [ | area rest IH]; intros H; simpl.
  - apply keeps_ret.
  - apply keeps_bind; [apply H; left; reflexivity | intros _].
    apply IH; intros a Ha; apply H; right; exact Ha.
Qed.

(** *** What the loop leaves alone, and what only grows *)

Lemma keeps_loop (I : Frame W -> Prop) (items : list value) :
  (forall st q p w, I (mkFrame st q p) -> I (mkFrame (set_world w st) q p)) ->
  (forall fr more, I fr -> I (set_queueAreas (queueAreas fr ++ more) fr)) ->
  (forall st q p x, I (mkFrame st q p) ->
     I (mkFrame (set_failedAreas (failedAreas st ++ [x]) st) q p)) ->
  (forall st q p r, I (mkFrame st q p) ->
     I (mkFrame (set_recorder (recorder st ++ [r]) st) q p)) ->
  keeps I (each_area E items).
Proof.
  intros Hw Hq Hf Hr. apply keeps_each_area; intros area _.
  apply keeps_queueArea; auto.
  intros fr id w subAreas w' _ H.
  destruct subAreas; simpl; apply Hq, H.
Qed.

Lemma each_area_promise (items : list value) (fr : Frame W) :
  promise (snd (each_area E items fr)) = promise fr.
Proof.
  apply (keeps_loop (fun fr' => promise fr' = promise fr) items); auto.
Qed.

Lemma each_area_downloadQueue (items : list value) (fr : Frame W) :
  downloadQueue (module (snd (each_area E items fr))) = downloadQueue (module fr).
Proof.
  apply (keeps_loop (fun fr' => downloadQueue (module fr') = downloadQueue (module fr)) items);
    auto.
Qed.

Lemma each_area_queueAreas (items : list value) (fr : Frame W) :
  exists more, queueAreas (snd (each_area E items fr)) = queueAreas fr ++ more.
Proof.
  apply (keeps_loop (fun fr' => exists more, queueAreas fr' = queueAreas fr ++ more) items);
    auto.
  - intros fr' more [more0 H]. exists (more0 ++ more).
    simpl. rewrite H, app_assoc. reflexivity.
  - exists []. rewrite app_nil_r. reflexivity.
Qed.

Lemma each_area_failedAreas (items : list value) (fr : Frame W) (x : value) :
  In x (failedAreas (module fr)) ->
  In x (failedAreas (module (snd (each_area E items fr)))).
Proof.
  apply (keeps_loop (fun fr' => In x (failedAreas (module fr'))) items); auto.
  intros st q p y H; simpl. apply in_or_app; left; exact H.
Qed.

Lemma each_area_recorder (items : list value) (fr : Frame W) (r : RecorderCall) :
  In r (recorder (module fr)) ->
  In r (recorder (module (snd (each_area E items fr)))).
Proof.
  apply (keeps_loop (fun fr' => In r (recorder (module fr'))) items); auto.
  intros st q p y H; simpl. apply in_or_app; left; exact H.
Qed.

(** *** A search whose response lists areas *)

Lemma search_callback_listing (error results err : value) (items : list value)
      (st : State W) :
  truthy error = false ->
  get_prop results "error" = Ok err -> truthy err = false ->
  get_prop results "areas" = Ok (VArr items) ->
  forallb readable items = true ->
  let fr1 := snd (each_area E items (mkFrame st [] None)) in
  snd (search_callback E error (Some (Text (Some results))) (mkFrame st [] None)) =
    mkFrame (set_downloadQueue (downloadQueue st ++ queueAreas fr1) (module fr1))
            (queueAreas fr1) (Some Resolved).
Proof.
  intros Herr Hge Hte Hga Hread fr1.
  cbv beta iota delta [search_callback try_catch bind ret lift_result modify gets
    missing_body response_body JSON_parse].
  rewrite Herr; cbv beta iota.
  rewrite Hge; cbv beta iota.
  rewrite Hte; cbv beta iota.
  rewrite Hga; cbv beta iota.
  simpl. rewrite Nat2Z.id.
  rewrite (for_areas_array [] items).
  change (set_queueAreas [] (mkFrame st [] None)) with (mkFrame st [] None).
  pose proof (each_area_ok items (mkFrame st [] None) Hread) as Hok.
  pose proof (each_area_promise items (mkFrame st [] None)) as Hp.
  pose proof (each_area_downloadQueue items (mkFrame st [] None)) as Hd.
  fold fr1 in Hp, Hd. simpl in Hp, Hd.
  destruct (each_area E items (mkFrame st [] None)) as [r fr] eqn:Hrun.
  simpl in Hok; subst r. simpl in fr1. subst fr1.
  destruct fr as [m q p]; simpl in *. subst p.
  destruct q as [ | entry more]; simpl.
  - unfold resolve, modify; simpl. rewrite <- Hd.
    destruct m; unfold set_downloadQueue; simpl. rewrite app_nil_r. reflexivity.
  - unfold resolve, modify, console_log, ret; simpl. rewrite Hd. reflexivity.
Qed.

Lemma queueSearch_listing (query : string) (st : State W) (items : list value) (w : W) :
  lists_areas E query st items w ->
  let fr1 := snd (each_area E items (mkFrame (set_world w st) [] None)) in
  queueSearch E query st =
    (Some Resolved,
     set_downloadQueue (downloadQueue st ++ queueAreas fr1) (module fr1)).
Proof.
  intros (error & results & err & Hreq & Herr & Hge & Hte & Hga & Hread) fr1.
  unfold queueSearch. rewrite Hreq.
  rewrite (search_callback_listing error results err items (set_world w st))
    by assumption.
  reflexivity.
Qed.

(** *** Reading a run backwards *)

Lemma bind_ok_inv {S A B} (c : M S A) (k : A -> M S B) (s s' : S) (b : B) :
  bind c k s = (Ok b, s') ->
  exists a s1, c s = (Ok a, s1) /\ k a s1 = (Ok b, s').
Proof.
  unfold bind. destruct (c s) as [[a | e] s1]; intros H.
  - exists a, s1. split; [reflexivity | exact H].
  - discriminate H.
Qed.

Lemma lift_result_inv {S A} (r : Result A) (s s1 : S) (a : A) :
  lift_result r s = (Ok a, s1) -> r = Ok a /\ s1 = s.
Proof. unfold lift_result; intros H; injection H as -> ->; split; reflexivity. Qed.

Lemma in_module_call_inv (f : W -> Result value * W) (fr fr1 : Frame W) (a : value) :
  in_module (call f) fr = (Ok a, fr1) ->
  exists w, f (world (module fr)) = (Ok a, w) /\
            queueAreas fr1 = queueAreas fr /\ world (module fr1) = w.
Proof.
  unfold in_module, call. destruct (f (world (module fr))) as [r w].
  intros H; injection H as -> <-. exists w. repeat split; reflexivity.
Qed.

Lemma in_module_reads_inv {A} (c : M (State W) A) (fr fr1 : Frame W) (a : A) :
  (forall st, snd (c st) = st) ->
  in_module c fr = (Ok a, fr1) -> fr1 = fr.
Proof.
  intros Hc; unfold in_module. specialize (Hc (module fr)).
  destruct (c (module fr)) as [r st]; simpl in Hc; subst st.
  intros H; injection H as _ <-. destruct fr; reflexivity.
Qed.

(** A try block that reaches its end was given identifiers and sub-areas by
    the service, and has added the root entry and then the sub-areas. *)
Lemma queueArea_try_queued (area : value) (fr fr' : Frame W) :
  queueArea_try E area fr = (Ok Queued, fr') ->
  exists w1 identifiers w2 subAreas w3,
    getAreaIdentifiers E (prop area "id") (VBool false) w1 = (Ok identifiers, w2) /\
    getSubAreas E (prop identifiers "id") w2 = (Ok subAreas, w3) /\
    queueAreas fr' =
      queueAreas fr ++
      root_entry (prop area "name") (prop identifiers "id")
                 (prop identifiers "key") (prop identifiers "areaData")
      :: sub_entries subAreas.
Proof.
  intros H; unfold queueArea_try in H.
  apply bind_ok_inv in H as (name0 & s0 & H0 & H). apply lift_result_inv in H0 as [_ ->].
  apply bind_ok_inv in H as (id0 & s0 & H0 & H). apply lift_result_inv in H0 as [_ ->].
  apply bind_ok_inv in H as (archived & s1 & H1 & H).
  apply in_module_call_inv in H1 as (w0 & _ & Hq1 & _).
  destruct (truthy archived); [discriminate H | ].
  apply bind_ok_inv in H as (id1 & s0 & H0 & H). apply lift_result_inv in H0 as [_ ->].
  apply bind_ok_inv in H as (queued & s2 & H2 & H).
  apply in_module_reads_inv in H2; [subst s2 | intros; reflexivity].
  destruct queued; [discriminate H | ].
  apply bind_ok_inv in H as (name1 & s0 & H0 & H). apply lift_result_inv in H0 as [_ ->].
  apply bind_ok_inv in H as (failed & s2 & H2 & H).
  apply in_module_reads_inv in H2; [subst s2 | intros; reflexivity].
  destruct failed; [discriminate H | ].
  apply bind_ok_inv in H as (id2 & s0 & H0 & H). apply lift_result_inv in H0 as [Hid ->].
  apply bind_ok_inv in H as (identifiers & s2 & H2 & H).
  apply in_module_call_inv in H2 as (w2 & Hids & Hq2 & Hw2).
  apply bind_ok_inv in H as (name2 & s0 & H0 & H). apply lift_result_inv in H0 as [_ ->].
  apply bind_ok_inv in H as ([] & s0 & H0 & H). injection H0 as <-.
  apply bind_ok_inv in H as (name & s0 & H0 & H). apply lift_result_inv in H0 as [Hname ->].
  apply bind_ok_inv in H as (iid & s0 & H0 & H). apply lift_result_inv in H0 as [Hiid ->].
  apply bind_ok_inv in H as (ikey & s0 & H0 & H). apply lift_result_inv in H0 as [Hikey ->].
  apply bind_ok_inv in H as (idata & s0 & H0 & H). apply lift_result_inv in H0 as [Hidata ->].
  apply bind_ok_inv in H as ([] & s3 & H3 & H). injection H3 as <-.
  apply bind_ok_inv in H as (iid1 & s0 & H0 & H). apply lift_result_inv in H0 as [Hiid1 ->].
  apply bind_ok_inv in H as (subAreas & s4 & H4 & H).
  apply in_module_call_inv in H4 as (w3 & Hsub & Hq4 & _).
  apply bind_ok_inv in H as (len & s0 & H0 & H). apply lift_result_inv in H0 as [Hlen ->].
  apply bind_ok_inv in H as ([] & s5 & H5 & H). injection H as <-.
  simpl in Hsub, Hq4. rewrite Hw2 in Hsub.
  apply prop_of_get_prop in Hid, Hname, Hiid, Hikey, Hidata, Hiid1, Hlen.
  subst id2 name iid ikey idata iid1 len.
  exists (world (module s1)), identifiers, w2, subAreas, w3.
  split; [exact Hids | split; [exact Hsub | ]].
  unfold sub_entries.
  destruct (truthy (prop subAreas "length")).
  - apply bind_ok_inv in H5 as ([] & s6 & H6 & H5). injection H6 as <-. injection H5 as <-.
    simpl. rewrite Hq4; simpl. rewrite Hq2, Hq1.
    destruct subAreas; simpl; rewrite <- app_assoc; reflexivity.
  - injection H5 as <-. rewrite Hq4; simpl. rewrite Hq2, Hq1. reflexivity.
Qed.

(** *** Where an area of the listing ends up *)

Lemma each_area_at (items : list value) (k : nat) (area : value) (fr : Frame W) :
  forallb readable items = true ->
  nth_error items k = Some area ->
  readable area = true /\
  snd (each_area E items fr) =
    snd (each_area E (skipn (S k) items) (snd (queueArea E area (frame_before E items k fr)))).
Proof.
  intros Hread Hk. unfold frame_before.
  destruct (nth_error_split _ _ Hk) as (first & rest & -> & <-).
  rewrite forallb_app in Hread. apply andb_prop in Hread as [Hfirst Hrest].
  simpl in Hrest. apply andb_prop in Hrest as [Hr Hrest].
  split; [exact Hr | ].
  rewrite firstn_app, Nat.sub_diag, firstn_all, app_nil_r.
  replace (skipn (S (List.length first)) (first ++ area :: rest)) with rest.
  2:{ rewrite skipn_app, skipn_all2 by lia.
      replace (S (List.length first) - List.length first) with 1 by lia. reflexivity. }
  rewrite each_area_app by assumption.
  simpl each_area at 1. unfold bind.
  destruct (queueArea_ok area (snd (each_area E first fr)) Hr) as [c Hc].
  destruct (queueArea E area (snd (each_area E first fr))) as [r fr1];
    simpl in Hc; subst r. reflexivity.
Qed.


(** An area whose try block reaches its end has its root entry in the queue
    once the search is over, followed at once by its sub-areas. *)
Lemma queued_area_in_queue (query : string) (st : State W) (items : list value) (w : W)
      (j : nat) (area : value) (frj : Frame W) :
  lists_areas E query st items w ->
  nth_error items j = Some area ->
  queueArea_try E area (frame_before E items j (mkFrame (set_world w st) [] None))
    = (Ok Queued, frj) ->
  exists w1 identifiers w2 subAreas w3 before after,
    getAreaIdentifiers E (prop area "id") (VBool false) w1 = (Ok identifiers, w2) /\
    getSubAreas E (prop identifiers "id") w2 = (Ok subAreas, w3) /\
    downloadQueue (snd (queueSearch E query st)) =
      downloadQueue st ++ before ++
      root_entry (prop area "name") (prop identifiers "id")
                 (prop identifiers "key") (prop identifiers "areaData")
      :: sub_entries subAreas ++ after.
Proof.
  intros Hl Hj Htry.
  rewrite (queueSearch_listing _ _ _ _ Hl).
  cbn [snd set_downloadQueue downloadQueue].
  destruct Hl as (error & results & err & _ & _ & _ & _ & _ & Hread).
  destruct (each_area_at items j area (mkFrame (set_world w st) [] None) Hread Hj)
    as [Hr ->].
  rewrite (queueArea_completed _ _ _ _ Hr Htry). cbn [snd].
  destruct (queueArea_try_queued _ _ _ Htry)
    as (w1 & identifiers & w2 & subAreas & w3 & Hids & Hsub & Hq).
  destruct (each_area_queueAreas (skipn (S j) items) frj) as [after Ha].
  exists w1, identifiers, w2, subAreas, w3.
  exists (queueAreas (frame_before E items j (mkFrame (set_world w st) [] None))), after.
  split; [exact Hids | split; [exact Hsub | ]].
  rewrite Ha, Hq. rewrite <- !app_assoc. reflexivity.
Qed.


(** *** The documented shape is an invariant *)

Lemma documented_entry_name (entry : value) :
  documented_entry entry = true ->
  get_prop entry "areaId" = Ok VUndef /\ is_name (prop entry "name") = true.
Proof.
  destruct entry as [ | | | | | fields | | ]; try discriminate.
  unfold prop; simpl.
  destruct (lookup "areaId" fields); [discriminate | ].
  destruct (lookup "name" fields) as [[ | | | | | | | ] | ]; try discriminate.
  split; reflexivity.
Qed.

Lemma documented_root_entry (name id key data : value) :
  is_name name = true -> documented_entry (root_entry name id key data) = true.
Proof. destruct name; try discriminate; reflexivity. Qed.

Lemma keeps_documented_record_status (areaData status : value) :
  is_name (prop areaData "name") = true ->
  keeps (@documented_state W) (record_status areaData status).
Proof.
  intros Hname.
  unfold record_status, addArchiveLog, push_failedAreas, logFailedArchive.
  apply keeps_bind_result; intros success _.
  apply keeps_if.
  - repeat (first [ apply keeps_bind_result; intros ? _
                  | apply keeps_bind; [ | intros ? ]
                  | apply keeps_modify; intros st H; exact H
                  | apply keeps_console_log ]).
  - apply keeps_bind_result; intros name Hn.
    apply keeps_bind.
    + apply keeps_modify; intros st [Hq Hf]. split; [exact Hq | ].
      simpl. rewrite forallb_app, Hf. simpl.
      rewrite (prop_of_get_prop _ _ _ Hn), Hname. reflexivity.
    + intros _.
      repeat (first [ apply keeps_bind_result; intros ? _
                    | apply keeps_modify; intros st H; exact H ]).
Qed.

Lemma keeps_documented_step_catch (e : value) :
  keeps (@documented_state W) (step_catch e).
Proof. intros st H. exact H. Qed.

Lemma processQueueStep_documented (st : State W) :
  documented_state st -> documented_state (snd (processQueueStep E st)).
Proof.
  intros [Hq Hf].
  destruct (downloadQueue st) as [ | entry rest] eqn:Hd.
  - rewrite processQueueStep_empty by assumption.
    unfold documented_state; simpl. rewrite Hd. split; [reflexivity | exact Hf].
  - simpl in Hq. apply andb_prop in Hq as [He Hrest].
    unfold processQueueStep, bind at 1, gets at 1; cbv beta iota; rewrite Hd.
    destruct (next_call_queue st) as [Hn Hc]. rewrite Hd in Hn, Hc; simpl in Hn, Hc.
    apply (keeps_after (@documented_state W)).
    + split; [rewrite Hn; exact Hrest | ].
      clear Hn Hc. unfold next_call, bind, gets, modify, lift_result, ret; cbv beta iota.
      repeat match goal with
             | |- context [get_prop ?v ?k] => destruct (get_prop v k)
             end; exact Hf.
    + intros [areaData [[[name id] key] data]] Ha.
      specialize (Hc _ Ha); simpl in Hc; subst areaData.
      apply keeps_bind.
      * apply keeps_call; intros s w H; exact H.
      * intros status. apply keeps_documented_record_status.
        apply documented_entry_name, He.
    + intros e; apply keeps_documented_step_catch.
Qed.

(** The property of a [queueSearch] frame that goes with it. *)
Lemma keeps_documented_queueArea (area : value) :
  documented_env E ->
  is_name (prop area "name") = true ->
  keeps (fun fr : Frame W => documented_state (module fr) /\
                             forallb documented_entry (queueAreas fr) = true)
        (queueArea E area).
Proof.
  intros [Hsub _] Hname. apply keeps_queueArea.
  - intros st q p w H; exact H.
  - intros fr id key data [Hm Hq]. split; [exact Hm | ].
    cbn [queueAreas set_queueAreas]. rewrite forallb_app, Hq. cbn [forallb].
    rewrite documented_root_entry by assumption. reflexivity.
  - intros fr id w subAreas w' Hs [Hm Hq]. split; [exact Hm | ].
    destruct (Hsub _ _ _ _ Hs) as (children & -> & Hc).
    simpl. rewrite forallb_app, Hq, Hc. reflexivity.
  - intros st q p [[Hd Hf] Hq]. cbn [module] in Hd, Hf.
    split; [split | ]; [exact Hd | | exact Hq].
    cbn [module failedAreas set_failedAreas]. rewrite forallb_app, Hf.
    simpl. rewrite Hname. reflexivity.
  - intros st q p r H; exact H.
Qed.

Lemma keeps_reject (I : Frame W -> Prop) (reason : value) :
  (forall st q p p', I (mkFrame st q p) -> I (mkFrame st q p')) ->
  keeps I (reject reason).
Proof.
  intros Hp fr H. unfold reject, modify; simpl.
  destruct fr as [st q [p | ]]; simpl; [exact H | apply (Hp _ _ _ _ H)].
Qed.

Lemma keeps_documented_search_callback (error : value) (response : option Body) :
  documented_env E ->
  named_areas response = true ->
  keeps (fun fr : Frame W => documented_state (module fr) /\
                             forallb documented_entry (queueAreas fr) = true)
        (search_callback E error response).
Proof.
  intros Henv Hnamed.
  assert (Hrej : forall reason,
             keeps (fun fr : Frame W => documented_state (module fr) /\
                                        forallb documented_entry (queueAreas fr) = true)
                   (reject reason)).
  { intros reason; apply keeps_reject. intros st q p p' H; exact H. }
  unfold search_callback.
  apply keeps_try_catch; [ | exact Hrej].
  apply keeps_bind; [apply keeps_if; [apply Hrej | apply keeps_ret] | intros _].
  apply keeps_bind; [apply keeps_if; [apply Hrej | apply keeps_ret] | intros _].
  apply keeps_bind_result; intros body Hbody.
  apply keeps_bind_result; intros results Hresults.
  apply keeps_bind_result; intros err _.
  apply keeps_bind; [apply keeps_if; [apply Hrej | apply keeps_ret] | intros _].
  apply keeps_bind_result; intros areas0 _.
  apply keeps_bind.
  { apply keeps_if; [apply keeps_ret | ].
    apply keeps_bind_result; intros len _. apply keeps_ret. }
  intros noAreas.
  apply keeps_bind; [apply keeps_if; [apply Hrej | apply keeps_ret] | intros _].
  apply keeps_bind.
  { apply keeps_modify. intros fr [Hm _]. split; [exact Hm | reflexivity]. }
  intros _.
  apply keeps_bind_result; intros areas Hareas.
  apply keeps_bind_result; intros len Hlen.
  destruct response as [body' | ]; [ | discriminate Hbody].
  simpl in Hbody; injection Hbody as <-.
  destruct body' as [ | [results' | ]]; try discriminate Hresults.
  simpl in Hresults; injection Hresults as ->.
  unfold named_areas in Hnamed. rewrite Hareas in Hnamed.
  destruct areas as [ | | | | | | items | ]; try discriminate.
  simpl in Hlen. injection Hlen as <-.
  apply keeps_bind.
  { intros fr H. simpl loop_bound. rewrite Nat2Z.id.
    rewrite (for_areas_array [] items).
    apply (keeps_each_area
             (fun fr : Frame W => documented_state (module fr) /\
                                  forallb documented_entry (queueAreas fr) = true)
             items); [ | exact H].
    intros area Hin.
    apply keeps_documented_queueArea; [exact Henv | ].
    rewrite forallb_forall in Hnamed. apply Hnamed, Hin. }
  intros _.
  intros fr [[Hd Hf] Hq]. unfold bind, gets.
  destruct (queueAreas fr) as [ | entry more] eqn:Hqa.
  - unfold ret, resolve, modify; simpl.
    destruct (promise fr); simpl; rewrite ?Hqa; repeat split; assumption.
  - unfold in_module, modify, console_log, ret, resolve; simpl.
    destruct (promise fr); unfold documented_state; simpl; rewrite ?Hqa;
      (split; [split; [ | exact Hf] | exact Hq]);
      rewrite forallb_app, Hd; exact Hq.
Qed.

Lemma queueSearch_documented (query : string) (st : State W) :
  documented_env E ->
  documented_state st -> documented_state (snd (queueSearch E query st)).
Proof.
  intros Henv Hst. unfold queueSearch.
  destruct (request E (toLowerCase query) (world st)) as [[error response] w] eqn:Hreq.
  simpl.
  apply (keeps_documented_search_callback error response Henv).
  - destruct Henv as [_ Hreqs]. apply (Hreqs _ _ _ _ _ Hreq).
  - split; [exact Hst | reflexivity].
Qed.

Lemma reachable_documented (st : State W) :
  documented_env E -> reachable E st -> documented_state st.
Proof.
  intros Henv Hr; induction Hr as [w | items st Hr IH Hitems | query st Hr IH | st Hr IH].
  - split; reflexivity.
  - destruct IH as [Hq Hf]. split; [ | exact Hf].
    simpl. rewrite forallb_app, Hq, Hitems. reflexivity.
  - apply queueSearch_documented; assumption.
  - apply processQueueStep_documented; assumption.
Qed.

(** On entries without an [areaId] property the queue check compares
    [undefined] with the candidate. *)
Lemma isInDownloadQueue_documented (areaId : value) (st : State W) :
  forallb documented_entry (downloadQueue st) = true ->
  fst (isInDownloadQueue areaId st) =
    Ok (match downloadQueue st with
        | [] => false
        | _ :: _ => is_undefined areaId
        end).
Proof.
  unfold isInDownloadQueue, bind, gets, lift_result; simpl.
  induction (downloadQueue st) as [ | entry rest IH]; intros H; [reflexivity | ].
  simpl in H. apply andb_prop in H as [He Hrest].
  simpl. destruct (documented_entry_name entry He) as [-> _].
  destruct areaId; simpl; try reflexivity;
    rewrite (IH Hrest); destruct rest; reflexivity.
Qed.

Lemma isInFailedAreas_documented (areaName : value) (st : State W) :
  forallb is_name (failedAreas st) = true ->
  fst (isInFailedAreas areaName st) =
    Ok (match failedAreas st with
        | [] => false
        | _ :: _ => is_undefined areaName
        end).
Proof.
  unfold isInFailedAreas, bind, gets, lift_result; simpl.
  induction (failedAreas st) as [ | name rest IH]; intros H; [reflexivity | ].
  simpl in H. apply andb_prop in H as [Hn Hrest].
  destruct name; try discriminate Hn.
  simpl. destruct areaName; simpl; try reflexivity;
    rewrite (IH Hrest); destruct rest; reflexivity.
Qed.

(** C10, as amended. Over the states the module's operations lead to, with
    entries and names of the documented shape, both dedup predicates answer
    false for every argument other than [undefined]; for [undefined] they
    answer true as soon as the queue, respectively the failed list, is not
    empty. *)
Theorem dedup_predicates_vacuous (st : State W) (arg : value) :
  documented_env E ->
  reachable E st ->
  (arg <> VUndef ->
   fst (isInDownloadQueue arg st) = Ok false /\
   fst (isInFailedAreas arg st) = Ok false) /\
  fst (isInDownloadQueue VUndef st) =
    Ok (match downloadQueue st with [] => false | _ :: _ => true end) /\
  fst (isInFailedAreas VUndef st) =
    Ok (match failedAreas st with [] => false | _ :: _ => true end).
Proof.
  intros Henv Hr. destruct (reachable_documented st Henv Hr) as [Hq Hf].
  split; [ | split].
  - intros Harg.
    rewrite isInDownloadQueue_documented, isInFailedAreas_documented by assumption.
    assert (is_undefined arg = false) as ->
      by (destruct arg; [exfalso; apply Harg; reflexivity | reflexivity ..]).
    destruct (downloadQueue st), (failedAreas st); split; reflexivity.
  - rewrite isInDownloadQueue_documented by assumption. reflexivity.
  - rewrite isInFailedAreas_documented by assumption. reflexivity.
Qed.

(** *** Searches that enqueue nothing *)

(** A response without a usable list of areas makes the promise reject and
    leaves the module state as it was. *)
Lemma queueSearch_malformed (query : string) (st : State W) (error : value)
      (response : option Body) (w : W) :
  request E (toLowerCase query) (world st) = ((error, response), w) ->
  malformed response = true ->
  exists reason, queueSearch E query st = (Some (Rejected reason), set_world w st).
Proof.
  intros Hreq Hm. unfold queueSearch. rewrite Hreq.
  cbv beta iota delta [search_callback try_catch bind ret lift_result modify gets
    reject resolve].
  destruct response as [[ | [results | ]] | ]; simpl in Hm |- *.
  - destruct (truthy error); simpl; eexists; reflexivity.
  - unfold no_areas in Hm.
    destruct (truthy error); simpl;
      (destruct (get_prop results "error") as [err | e0]; simpl;
       [ destruct (truthy err); simpl | eexists; reflexivity ]);
      (destruct (get_prop results "areas") as [areas | e1]; simpl;
       [ | eexists; reflexivity ]);
      (destruct (is_undefined areas) eqn:Hu; simpl in Hm |- *;
       [ destruct areas; try discriminate Hu; simpl; eexists; reflexivity | ]);
      (destruct (get_prop areas "length") as [len | e2]; simpl;
       [ | eexists; reflexivity ]);
      rewrite Hm; simpl; destruct len; try discriminate Hm; simpl;
      eexists; reflexivity.
  - destruct (truthy error); simpl; eexists; reflexivity.
  - destruct (truthy error); simpl; eexists; reflexivity.
Qed.

(** An area the archive index already holds is skipped: its try block ends
    by [continue] and [queueAreas] is as before. *)
Lemma archived_area_skipped (area archived : value) (fr : Frame W) (w : W) :
  readable area = true ->
  isAreaArchived E (prop area "name") (prop area "id") (world (module fr))
    = (Ok archived, w) ->
  truthy archived = true ->
  queueArea E area fr =
    (Ok Continue, mkFrame (set_world w (module fr)) (queueAreas fr) (promise fr)).
Proof.
  intros Hr Ha Ht.
  apply queueArea_completed; [exact Hr | ].
  unfold queueArea_try, bind, lift_result, in_module, call.
  rewrite !(get_prop_readable area) by assumption.
  rewrite Ha, Ht. reflexivity.
Qed.

End Properties.

(** ** The claims on the drain loop *)

(** C2, as amended. A timer turn starts at most one archive call, that of the
    front entry, and no other turn starts one; but a timer turn does not wait
    for the calls started before, so the calls outstanding are bounded by
    the timer turns taken, not by one. *)
Theorem drain_loop_in_flight {W : Type} (l : Loop W) (evs : list Event) :
  List.length (inflight (turns evs l)) <= List.length (inflight l) + timer_turns evs /\
  (inflight (turn Timer l) = inflight l \/
   exists entry rest,
     downloadQueue (state l) = entry :: rest /\
     inflight (turn Timer l) = inflight l ++ [entry] /\
     downloadQueue (state (turn Timer l)) = rest).
Proof.
  split; [apply turns_inflight | apply timer_turn_front].
Qed.

(** C2 fails as stated: after two timer turns on a queue of two entries both
    archive calls are outstanding. *)
Lemma two_archive_calls_in_flight :
  ~ (forall evs : list Event,
       List.length (inflight (turns evs (mkLoop queue_named []))) <= 1).
Proof.
  intros H. specialize (H [Timer; Timer]). vm_compute in H. lia.
Qed.

(** C3 fails on the code: when the archive call throws, the catch block
    reads the unbound [areaName] and the tick itself ends in a
    ReferenceError. *)
Theorem tick_throws_when_archive_throws :
  fst (processQueueStep (stub []) (mkState [area "castle" "X"] [] [] tt)) =
    Throw (ReferenceError "areaName").
Proof. reflexivity. Qed.

(** C4 fails on the code for a thrown error: the entry is gone from the
    queue, and neither a record nor a failed name is left. *)
Theorem thrown_archive_leaves_no_record :
  snd (processQueueStep (stub []) (mkState [area "castle" "X"] [] [] tt)) =
    mkState [] [] [] tt.
Proof. reflexivity. Qed.

(** C9. The worked example: from a queue of the two entries A and B, with
    an archive operation that succeeds for A and reports
    [{success: false, msg: "timeout"}] for B, two ticks leave the queue
    empty, one success record for A and one failure record for B with the
    message ["timeout"] in the log, and ["B"] alone on the failed list.
    First with entries of a name and an id, then with full queue entries. *)
Theorem two_ticks_example :
  ticks (stub []) 2 queue_named =
    mkState [] [VStr "B"]
            [AddArchiveLog (VStr "A") (VStr "A") VUndef VUndef VUndef;
             LogFailedArchive (VStr "B") (VStr "B") VUndef (VStr "timeout")]
            tt /\
  ticks (stub []) 2 queue_entries =
    mkState [] [VStr "B"]
            [AddArchiveLog (VStr "A") (VStr "A") (VStr "key") (VBool false) VNull;
             LogFailedArchive (VStr "B") (VStr "B") (VStr "key") (VStr "timeout")]
            tt.
Proof. split; reflexivity. Qed.

(** ** The claims on the search *)

(** C1 fails on the code: an area listed twice in one response is queued
    twice, and so is an area found again by a second search while it is
    still pending. *)
Theorem duplicate_ids_enqueued :
  distinct_ids (downloadQueue (snd (queueSearch (stub castle_twice) "castle" (initial tt))))
    = false /\
  distinct_ids
    (downloadQueue
       (snd (queueSearch castle_B "castle"
               (snd (queueSearch castle_B "castle" (initial tt))))))
    = false.
Proof. split; reflexivity. Qed.

(** C5 fails on the code: an area whose id is in the queue, or whose name is
    in the failed list, is appended all the same. *)
Theorem queued_or_failed_area_appended :
  let pending := snd (queueSearch castle_B "castle" (initial tt)) in
  let failed := snd (processQueueStep castle_B pending) in
  (spec_queued (VStr "B") (downloadQueue pending) = true /\
   downloadQueue (snd (queueSearch castle_B "castle" pending)) =
     downloadQueue pending ++
     [root_entry (VStr "castle") (VStr "B") (VStr "key") (VObj [])]) /\
  (spec_previouslyFailed (VStr "castle") (failedAreas failed) = true /\
   downloadQueue failed = [] /\
   downloadQueue (snd (queueSearch castle_B "castle" failed)) =
     [root_entry (VStr "castle") (VStr "B") (VStr "key") (VObj [])]).
Proof. repeat split; reflexivity. Qed.

(** C6 fails on the code: when the area whose discovery fails has no name,
    [undefined] goes on the failed list and the failed check throws for the
    areas after it, so an area that is not archived and that the resolvers
    know is recorded as failed instead of being queued. *)
Theorem nameless_failure_stops_batch :
  queueSearch (stub nameless_failure) "castle" (initial tt) =
    (Some Resolved,
     mkState
       [root_entry (VStr "castle") (VStr "castle-id") (VStr "key") (VObj []);
        child "castle cellar" "cellar-id" (VStr "castle-id")]
       [VUndef; VStr "tower"]
       [LogFailedArchive VUndef VUndef VUndef (VError "Error" "no identifiers");
        LogFailedArchive (VStr "tower") VUndef VUndef
          (TypeError "Cannot read properties of undefined (reading 'areaName')")]
       tt) /\
  resolvable (stub nameless_failure) (area "tower" "2").
Proof.
  split; [reflexivity | ].
  split.
  - intros w. exists (VBool false), w. split; reflexivity.
  - intros w. exists (identifiers_of (VStr "2")), w.
    split; [reflexivity | split; [reflexivity | ]].
    intros w2. exists (VArr []), w2. split; reflexivity.
Qed.

(** C7 fails on the code: a response with an [error] field that also lists
    areas makes the promise reject, and the areas are queued nevertheless;
    and a response whose [areas] is a text, not a list, does not make the
    promise reject: its characters are taken as areas. *)
Theorem error_response_still_enqueues :
  queueSearch (stub_error_field [area "castle" "1"]) "castle" (initial tt) =
    (Some (Rejected (VStr "Missing body")),
     mkState [root_entry (VStr "castle") (VStr "1") (VStr "key") (VObj [])] [] [] tt) /\
  fst (queueSearch stub_text_areas "castle" (initial tt)) = Some Resolved.
Proof. split; reflexivity. Qed.

(** ** Instances *)

Lemma stub_lists_areas (areas : list value) (query : string) (st : State unit) :
  forallb readable areas = true ->
  lists_areas (stub areas) query st areas tt.
Proof.
  intros H. exists VNull, (VObj [("areas", VArr areas)]), VUndef.
  destruct st as [q f r []]. repeat split; [reflexivity .. | exact H].
Defined.


Lemma stub_documented_env (areas : list value) :
  forallb (fun a => is_name (prop a "name")) areas = true ->
  documented_env (stub areas).
Proof.
  intros Hn. split.
  - intros id w r w' H. simpl in H. injection H as <- _.
    eexists; split; [reflexivity | ].
    destruct (strict_eq id (VStr "castle-id")); reflexivity.
  - intros term w error response w' H. simpl in H. injection H as _ <- _.
    exact Hn.
Defined.


Lemma dedup_predicates_vacuous_witness :
  let pending := snd (queueSearch castle_B "castle" (initial tt)) in
  documented_env castle_B /\
  reachable castle_B pending /\
  spec_queued (VStr "B") (downloadQueue pending) = true /\
  fst (isInDownloadQueue (VStr "B") pending) = Ok false /\
  fst (isInFailedAreas (VStr "B") pending) = Ok false.
Proof.
  intros pending.
  assert (H0 : documented_env castle_B) by (apply stub_documented_env; reflexivity).
  assert (H1 : reachable castle_B pending) by (apply reach_search, reach_initial).
  destruct (dedup_predicates_vacuous castle_B pending (VStr "B") H0 H1) as (V & _).
  destruct V as [Q F]; [discriminate | ].
  exact (conj H0 (conj H1 (conj eq_refl (conj Q F)))).
Defined.

(** C10 fails as stated: in a reachable state with a pending entry, the
    queue check answers true for the candidate [undefined]. *)
Lemma undefined_candidate_is_queued :
  documented_env castle_B /\
  ~ (forall (st : State unit) (arg : value),
       reachable castle_B st ->
       fst (isInDownloadQueue arg st) = Ok false /\
       fst (isInFailedAreas arg st) = Ok false).
Proof.
  split; [apply stub_documented_env; reflexivity | ].
  intros H.
  destruct (H (snd (queueSearch castle_B "castle" (initial tt))) VUndef
              (reach_search castle_B "castle" _ (reach_initial castle_B tt))) as [Q _].
  vm_compute in Q. discriminate Q.
Qed.

(** ** Further properties of the module *)

Section Further.
Context {W : Type} (E : Env W).

(** *** Ticks *)

Lemma get_prop_unreadable (v : value) (k : string) :
  readable v = false -> exists e, get_prop v k = Throw e.
Proof.
  destruct v; simpl; intros H; try discriminate H; eexists; reflexivity.
Qed.

(** X1. After [n] ticks the queue has lost its first [n] entries and nothing
    else, whatever the archive calls did. *)
Theorem ticks_drain_front (n : nat) (st : State W) :
  downloadQueue (ticks E n st) = skipn n (downloadQueue st).
Proof.
  revert st; induction n as [ | n IH]; intros st; [reflexivity | ].
  simpl ticks. rewrite IH, processQueueStep_queue.
  destruct (downloadQueue st); [rewrite skipn_nil | ]; reflexivity.
Qed.

(** X2. On an empty queue ticks change nothing, however many there are, and
    none of them calls the archive operation. *)
Theorem ticks_idle (n : nat) (st : State W) :
  downloadQueue st = [] -> ticks E n st = st.
Proof.
  intros H; induction n as [ | n IH]; [reflexivity | ].
  simpl. rewrite processQueueStep_empty by assumption. exact IH.
Qed.

(** What the catch block of a tick does: nothing but throw. *)
Lemma step_catch_throws (e : value) (st : State W) :
  step_catch e st = (Throw (ReferenceError "areaName"), st).
Proof. reflexivity. Qed.

Lemma record_status_cases (areaData status : value) (st : State W) :
  readable areaData = true ->
  (exists e, record_status areaData status st = (Throw e, st)) \/
  record_status areaData status st =
    (Ok tt, set_recorder (recorder st ++
              [AddArchiveLog (prop areaData "name") (prop areaData "id")
                 (prop areaData "key") (prop areaData "subArea")
                 (prop areaData "parentId")]) st) \/
  record_status areaData status st =
    (Ok tt,
     set_recorder (recorder st ++
        [LogFailedArchive (prop areaData "name") (prop areaData "id")
           (prop areaData "key") (prop status "msg")])
       (set_failedAreas (failedAreas st ++ [prop areaData "name"]) st)).
Proof.
  intros Hr.
  unfold record_status, bind, lift_result, console_log, ret, addArchiveLog,
    push_failedAreas, logFailedArchive, modify.
  destruct (readable status) eqn:Hs.
  - rewrite !(get_prop_readable status) by assumption.
    rewrite !(get_prop_readable areaData) by assumption.
    destruct (truthy (prop status "success")); [right; left | right; right];
      reflexivity.
  - destruct (get_prop_unreadable status "success" Hs) as [e ->].
    left; exists e; reflexivity.
Qed.

(** A tick on a non-empty queue, by what happens to the front entry. *)
Lemma processQueueStep_front (st : State W) (entry : value) (rest : list value) :
  downloadQueue st = entry :: rest ->
  processQueueStep E st =
    if readable entry then
      let (r, w) := archiveArea E (prop entry "name") (prop entry "id")
                      (prop entry "key") (prop entry "areaData") (world st) in
      match r with
      | Ok status =>
          match record_status entry status
                  (mkState rest (failedAreas st) (recorder st) w) with
          | (Ok a, st') => (Ok a, st')
          | (Throw _, st') => (Throw (ReferenceError "areaName"), st')
          end
      | Throw _ =>
          (Throw (ReferenceError "areaName"),
           mkState rest (failedAreas st) (recorder st) w)
      end
    else
      (Throw (ReferenceError "areaName"),
       mkState rest (failedAreas st) (recorder st) (world st)).
Proof.
  intros Hq.
  unfold processQueueStep, bind, gets, try_catch, next_call, bind, gets, modify,
    lift_result, ret, call.
  cbv beta iota; rewrite Hq; cbv beta iota; rewrite Hq; simpl hd; simpl tl.
  destruct (readable entry) eqn:Hr.
  - rewrite !(get_prop_readable entry) by assumption.
    simpl world.
    destruct (archiveArea E (prop entry "name") (prop entry "id") (prop entry "key")
                (prop entry "areaData") (world st)) as [[status | e] w];
      [ | reflexivity].
    unfold set_world, set_downloadQueue; simpl.
    destruct (record_status entry status (mkState rest (failedAreas st) (recorder st) w))
      as [[a | e] st']; reflexivity.
  - destruct (get_prop_unreadable entry "name" Hr) as [e ->]. reflexivity.
Qed.

(** X3. The bookkeeping of one tick.  A tick ends in one of three ways: it
    writes nothing and leaves the failed list alone; or it writes one
    success record and leaves the failed list alone; or it adds one name to
    the failed list and writes one failure record for that same name.  In
    the last two it resolves. *)
Theorem tick_bookkeeping (st : State W) :
  let st' := snd (processQueueStep E st) in
  (failedAreas st' = failedAreas st /\ recorder st' = recorder st) \/
  (fst (processQueueStep E st) = Ok tt /\
   failedAreas st' = failedAreas st /\
   exists name id key subArea parentId,
     recorder st' = recorder st ++ [AddArchiveLog name id key subArea parentId]) \/
  (fst (processQueueStep E st) = Ok tt /\
   exists name id key reason,
     failedAreas st' = failedAreas st ++ [name] /\
     recorder st' = recorder st ++ [LogFailedArchive name id key reason]).
Proof.
  cbv zeta.
  destruct (downloadQueue st) as [ | entry rest] eqn:Hq.
  { rewrite processQueueStep_empty by assumption. left; split; reflexivity. }
  rewrite (processQueueStep_front st entry rest Hq).
  destruct (readable entry) eqn:Hr; [ | left; split; reflexivity].
  destruct (archiveArea E (prop entry "name") (prop entry "id") (prop entry "key")
              (prop entry "areaData") (world st)) as [[status | e] w];
    [ | left; split; reflexivity].
  destruct (record_status_cases entry status
              (mkState rest (failedAreas st) (recorder st) w) Hr)
    as [[e ->] | [-> | ->]].
  - left; split; reflexivity.
  - right; left. split; [reflexivity | split; [reflexivity | ]].
    do 5 eexists; reflexivity.
  - right; right. split; [reflexivity | ].
    do 4 eexists; split; reflexivity.
Qed.

(** X4. The only way a tick fails: its promise either resolves or rejects
    with the ReferenceError of the catch block; the error thrown by the
    archive call or by reading the entry never comes out. *)
Theorem tick_error_is_masked (st : State W) :
  fst (processQueueStep E st) = Ok tt \/
  fst (processQueueStep E st) = Throw (ReferenceError "areaName").
Proof.
  destruct (downloadQueue st) as [ | entry rest] eqn:Hq.
  { rewrite processQueueStep_empty by assumption. left; reflexivity. }
  rewrite (processQueueStep_front st entry rest Hq).
  destruct (readable entry); [ | right; reflexivity].
  destruct (archiveArea E (prop entry "name") (prop entry "id") (prop entry "key")
              (prop entry "areaData") (world st)) as [[status | e] w];
    [ | right; reflexivity].
  destruct (record_status entry status (mkState rest (failedAreas st) (recorder st) w))
    as [[[] | e] st']; [left | right]; reflexivity.
Qed.

(** X5. What a tick does with the status the archive call returns: for a
    truthy [success] one success record with the entry's name, id, key,
    [subArea] and [parentId]; otherwise the entry's name on the failed list
    and one failure record with the entry's name, id, key and the status
    message.  Either way the entry is gone and the promise resolves. *)
Theorem tick_on_status (st : State W) (entry : value) (rest : list value)
      (status success : value) (w : W) :
  downloadQueue st = entry :: rest ->
  readable entry = true ->
  archiveArea E (prop entry "name") (prop entry "id") (prop entry "key")
              (prop entry "areaData") (world st) = (Ok status, w) ->
  get_prop status "success" = Ok success ->
  processQueueStep E st =
    (Ok tt,
     if truthy success then
       mkState rest (failedAreas st)
               (recorder st ++ [AddArchiveLog (prop entry "name") (prop entry "id")
                                  (prop entry "key") (prop entry "subArea")
                                  (prop entry "parentId")]) w
     else
       mkState rest (failedAreas st ++ [prop entry "name"])
               (recorder st ++ [LogFailedArchive (prop entry "name") (prop entry "id")
                                  (prop entry "key") (prop status "msg")]) w).
Proof.
  intros Hq Hr Ha Hs. destruct (truthy success) eqn:Ht.
  - apply (processQueueStep_archived E st entry rest status success w); assumption.
  - apply (processQueueStep_failed E st entry rest status success w); assumption.
Qed.

(** X6. When the archive call throws, for whatever entry and error, the tick
    rejects with the ReferenceError, the entry is gone from the queue, and
    neither the failed list nor the log has changed. *)
Theorem tick_on_throw (st : State W) (entry : value) (rest : list value)
      (e : value) (w : W) :
  downloadQueue st = entry :: rest ->
  readable entry = true ->
  archiveArea E (prop entry "name") (prop entry "id") (prop entry "key")
              (prop entry "areaData") (world st) = (Throw e, w) ->
  processQueueStep E st =
    (Throw (ReferenceError "areaName"),
     mkState rest (failedAreas st) (recorder st) w).
Proof. apply processQueueStep_thrown. Qed.

(** X7. Entries appended and then reached: once the entries that were
    queued before have been drained, the queue is exactly the appended
    items, in the order given. *)
Theorem append_then_drain (items : list value) (st : State W) :
  downloadQueue (ticks E (List.length (downloadQueue st))
                       (appendDownloadQueue (VArr items) st)) = items.
Proof.
  rewrite ticks_drain_front. simpl.
  rewrite skipn_app, skipn_all, Nat.sub_diag. reflexivity.
Qed.

(** *** Searches, whatever the response *)

Lemma keeps_for_areas (I : Frame W -> Prop) (areas : value) (n i : nat) :
  (forall area, keeps I (queueArea E area)) -> keeps I (for_areas E areas n i).
Proof.
  intros Harea. revert i; induction n as [ | n IH]; intros i; simpl.
  - apply keeps_ret.
  - apply keeps_bind; [apply Harea | intros _; apply IH].
Qed.

(** A property of the frame is kept by the callback when the loop body, the
    settling of the promise, the emptying of [queueAreas] and the final
    [concat] keep it. *)
Lemma keeps_search_callback (I : Frame W -> Prop) (error : value)
      (response : option Body) :
  (forall area, keeps I (queueArea E area)) ->
  (forall reason, keeps I (reject reason)) ->
  keeps I resolve ->
  (forall fr, I fr -> I (set_queueAreas [] fr)) ->
  (forall fr, I fr ->
     I (mkFrame (set_downloadQueue (downloadQueue (module fr) ++ queueAreas fr) (module fr))
                (queueAreas fr) (promise fr))) ->
  keeps I (search_callback E error response).
Proof.
  intros Harea Hrej Hres Hreset Hconcat.
  unfold search_callback.
  apply keeps_try_catch; [ | exact Hrej].
  apply keeps_bind; [apply keeps_if; [apply Hrej | apply keeps_ret] | intros _].
  apply keeps_bind; [apply keeps_if; [apply Hrej | apply keeps_ret] | intros _].
  apply keeps_bind_result; intros body _.
  apply keeps_bind_result; intros results _.
  apply keeps_bind_result; intros err _.
  apply keeps_bind; [apply keeps_if; [apply Hrej | apply keeps_ret] | intros _].
  apply keeps_bind_result; intros areas0 _.
  apply keeps_bind.
  { apply keeps_if; [apply keeps_ret | ].
    apply keeps_bind_result; intros len _. apply keeps_ret. }
  intros noAreas.
  apply keeps_bind; [apply keeps_if; [apply Hrej | apply keeps_ret] | intros _].
  apply keeps_bind; [apply keeps_modify; exact Hreset | intros _].
  apply keeps_bind_result; intros areas _.
  apply keeps_bind_result; intros len _.
  apply keeps_bind; [apply keeps_for_areas; exact Harea | intros _].
  intros fr H. unfold bind, gets.
  destruct (queueAreas fr) as [ | entry more] eqn:Hqa.
  - unfold ret. apply Hres, H.
  - unfold in_module, modify, console_log, ret. apply Hres.
    rewrite <- Hqa. apply Hconcat, H.
Qed.

Lemma queueArea_unreadable (area : value) (fr : Frame W) :
  readable area = false -> exists e, queueArea E area fr = (Throw e, fr).
Proof.
  intros Hr. unfold queueArea, bind, lift_result.
  destruct (get_prop_unreadable area "id" Hr) as [e ->]. exists e; reflexivity.
Qed.

(** The try block for an area leaves the queue, the failed list and the log
    of the module alone. *)
Lemma queueArea_try_module (area : value) (fr : Frame W) :
  let m := module (snd (queueArea_try E area fr)) in
  downloadQueue m = downloadQueue (module fr) /\
  failedAreas m = failedAreas (module fr) /\
  recorder m = recorder (module fr).
Proof.
  apply (keeps_queueArea_try E area
           (fun fr' => downloadQueue (module fr') = downloadQueue (module fr) /\
                       failedAreas (module fr') = failedAreas (module fr) /\
                       recorder (module fr') = recorder (module fr))); auto.
Qed.

(** One turn of the loop: the queue of the module is not touched, and
    either the failed list and the log are not touched, or the name of the
    area is added to the one and a failure record for it to the other. *)
Lemma queueArea_bookkeeping (area : value) (fr : Frame W) :
  let m := module (snd (queueArea E area fr)) in
  downloadQueue m = downloadQueue (module fr) /\
  ((failedAreas m = failedAreas (module fr) /\ recorder m = recorder (module fr)) \/
   exists id key e,
     failedAreas m = failedAreas (module fr) ++ [prop area "name"] /\
     recorder m = recorder (module fr) ++ [LogFailedArchive (prop area "name") id key e]).
Proof.
  cbv zeta. destruct (readable area) eqn:Hr.
  - destruct (queueArea_try_module area fr) as (Hd & Hf & Hrec).
    destruct (queueArea_try E area fr) as [[c | e] fr'] eqn:Ht; simpl in Hd, Hf, Hrec.
    + rewrite (queueArea_completed E _ _ _ _ Hr Ht); simpl.
      split; [exact Hd | left; split; assumption].
    + rewrite (queueArea_caught E _ _ _ _ Hr Ht); simpl.
      split; [exact Hd | right]. do 3 eexists. rewrite Hf, Hrec. split; reflexivity.
  - destruct (queueArea_unreadable area fr Hr) as [e ->]; simpl.
    split; [reflexivity | left; split; reflexivity].
Qed.

(** X8. A search only appends: whatever the response and the collaborators
    do, the entries that were queued stay at the front in their order, the
    failed list and the log keep what they held, and the search adds to the
    log exactly one failure record for each name it adds to the failed
    list, in the same order; it never writes a success record. *)
Theorem search_only_appends (query : string) (st : State W) :
  let st' := snd (queueSearch E query st) in
  exists more names records,
    downloadQueue st' = downloadQueue st ++ more /\
    failedAreas st' = failedAreas st ++ names /\
    recorder st' = recorder st ++ records /\
    map failure_name records = map Some names.
Proof.
  cbv zeta. unfold queueSearch.
  destruct (request E (toLowerCase query) (world st)) as [[error response] w].
  cbn [snd].
  apply (keeps_search_callback
           (fun fr => exists more names records,
              downloadQueue (module fr) = downloadQueue st ++ more /\
              failedAreas (module fr) = failedAreas st ++ names /\
              recorder (module fr) = recorder st ++ records /\
              map failure_name records = map Some names)).
  - intros area fr (more & names & records & Hd & Hf & Hr & Hm).
    destruct (queueArea_bookkeeping area fr) as (Hd' & [[Hf' Hr'] | (id & key & e & Hf' & Hr')]).
    + exists more, names, records. rewrite Hd', Hf', Hr'. auto.
    + exists more, (names ++ [prop area "name"]),
             (records ++ [LogFailedArchive (prop area "name") id key e]).
      rewrite Hd', Hf', Hr', Hd, Hf, Hr, !map_app, Hm, <- !app_assoc. auto.
  - intros reason. apply keeps_reject. intros s q p p' H; exact H.
  - intros fr H. unfold resolve, modify; simpl.
    destruct fr as [s q [p | ]]; exact H.
  - intros fr H; exact H.
  - intros fr (more & names & records & Hd & Hf & Hr & Hm).
    exists (more ++ queueAreas fr), names, records. simpl.
    rewrite Hd, <- app_assoc. auto.
  - exists [], [], []. simpl. rewrite !app_nil_r. auto.
Qed.

(** *** The promise *)

Lemma reject_settles (reason : value) (fr : Frame W) :
  promise (snd (reject reason fr)) <> None.
Proof.
  unfold reject, modify. destruct fr as [m q [p | ]]; simpl; intros Hp; discriminate Hp.
Qed.

Lemma resolve_settles (fr fr' : Frame W) (a : unit) :
  resolve fr = (Ok a, fr') -> promise fr' <> None.
Proof.
  unfold resolve, modify; intros H.
  apply (f_equal snd) in H; simpl in H; subst fr'.
  destruct fr as [m q [p | ]]; simpl; intros Hp; discriminate Hp.
Qed.

(** X9. The promise of a search always settles: when the callback has run,
    it is resolved or rejected, never left pending. *)
Theorem search_settles (query : string) (st : State W) :
  fst (queueSearch E query st) <> None.
Proof.
  unfold queueSearch.
  destruct (request E (toLowerCase query) (world st)) as [[error response] w].
  cbn [fst]. unfold search_callback, try_catch.
  match goal with
  | |- context [let (r, s') := ?body ?fr in _] => destruct (body fr) as [[a | e] fr1] eqn:H
  end; cbn [snd].
  - repeat (apply bind_ok_inv in H as (? & ? & _ & H)).
    apply (resolve_settles _ _ _ H).
  - apply reject_settles.
Qed.

(** X10. A transport error decides the outcome: when [request] hands the
    callback a truthy [error], the promise rejects with that very error,
    whatever response came with it. *)
Theorem transport_error_rejects (query : string) (st : State W) (error : value)
      (response : option Body) (w : W) :
  request E (toLowerCase query) (world st) = ((error, response), w) ->
  truthy error = true ->
  fst (queueSearch E query st) = Some (Rejected error).
Proof.
  intros Hreq Herr. unfold queueSearch. rewrite Hreq. cbn [fst].
  assert (Hsame : search_callback E error response (mkFrame (set_world w st) [] None) =
                  search_callback E error response
                    (mkFrame (set_world w st) [] (Some (Rejected error)))).
  { unfold search_callback, try_catch. unfold bind at 1 15.
    rewrite Herr. reflexivity. }
  rewrite Hsame.
  apply (keeps_search_callback (fun fr => promise fr = Some (Rejected error))).
  - intros area. apply (keeps_queueArea E); auto.
  - intros reason fr H. unfold reject, modify; simpl. rewrite H. exact H.
  - intros fr H. unfold resolve, modify; simpl. rewrite H. exact H.
  - intros fr H; exact H.
  - intros fr H; exact H.
  - reflexivity.
Qed.

(** X11. A response without a usable list of areas (no response, no body, a
    body that is not JSON, [areas] missing or without [length]) makes the
    promise reject and leaves the queue, the failed list and the log as they
    were. *)
Theorem malformed_response_rejects (query : string) (st : State W) (error : value)
      (response : option Body) (w : W) :
  request E (toLowerCase query) (world st) = ((error, response), w) ->
  malformed response = true ->
  exists reason, queueSearch E query st = (Some (Rejected reason), set_world w st).
Proof. apply queueSearch_malformed. Qed.

(** *** Listings *)

(** X19. A response that lists readable areas makes the promise resolve,
    whatever the archive index and the resolvers answer or throw for them. *)
Theorem listing_resolves (query : string) (st : State W) (items : list value) (w : W) :
  lists_areas E query st items w ->
  fst (queueSearch E query st) = Some Resolved.
Proof.
  intros Hl. rewrite (queueSearch_listing E _ _ _ _ Hl). reflexivity.
Qed.

(** X12. When the archive index holds every area of a listing, the search
    resolves and the queue, the failed list and the log are as before: no
    resolver is asked and nothing is queued. *)
Theorem archived_listing_enqueues_nothing (query : string) (st : State W)
      (items : list value) (w : W) :
  lists_areas E query st items w ->
  (forall name id w0, exists archived w1,
     isAreaArchived E name id w0 = (Ok archived, w1) /\ truthy archived = true) ->
  fst (queueSearch E query st) = Some Resolved /\
  downloadQueue (snd (queueSearch E query st)) = downloadQueue st /\
  failedAreas (snd (queueSearch E query st)) = failedAreas st /\
  recorder (snd (queueSearch E query st)) = recorder st.
Proof.
  intros Hl Harch. rewrite (queueSearch_listing E _ _ _ _ Hl).
  destruct Hl as (error & results & err & _ & _ & _ & _ & _ & Hread).
  cbn [fst snd].
  assert (H : let fr := snd (each_area E items (mkFrame (set_world w st) [] None)) in
              queueAreas fr = [] /\ failedAreas (module fr) = failedAreas st /\
              recorder (module fr) = recorder st).
  { apply (keeps_each_area E
             (fun fr => queueAreas fr = [] /\ failedAreas (module fr) = failedAreas st /\
                        recorder (module fr) = recorder st) items).
    - intros area Hin fr (Hq & Hf & Hr).
      rewrite forallb_forall in Hread. specialize (Hread area Hin).
      destruct (Harch (prop area "name") (prop area "id") (world (module fr)))
        as (archived & w1 & Ha & Ht).
      rewrite (archived_area_skipped E area archived fr w1 Hread Ha Ht). simpl.
      auto.
    - simpl. auto. }
  cbv zeta in H. destruct H as (Hq & Hf & Hr).
  rewrite Hq, app_nil_r. simpl. auto.
Qed.

(** X13. An element of [areas] that is [null] makes the whole search
    reject, and nothing of the pass is queued, not even the areas that came
    before it in the list. *)
Theorem unreadable_area_rejects (query : string) (st : State W)
      (error results err bad : value) (before after : list value) (w : W) :
  request E (toLowerCase query) (world st) = ((error, Some (Text (Some results))), w) ->
  truthy error = false ->
  get_prop results "error" = Ok err -> truthy err = false ->
  get_prop results "areas" = Ok (VArr (before ++ bad :: after)) ->
  forallb readable before = true ->
  readable bad = false ->
  (exists e, fst (queueSearch E query st) = Some (Rejected e)) /\
  downloadQueue (snd (queueSearch E query st)) = downloadQueue st.
Proof.
  intros Hreq Herr Hge Hte Hga Hbefore Hbad.
  unfold queueSearch. rewrite Hreq.
  cbv beta iota delta [search_callback try_catch bind ret lift_result modify gets
    missing_body response_body JSON_parse].
  rewrite Herr; cbv beta iota.
  rewrite Hge; cbv beta iota.
  rewrite Hte; cbv beta iota.
  rewrite Hga; cbv beta iota.
  simpl. rewrite Nat2Z.id.
  rewrite (for_areas_array E [] (before ++ bad :: after)).
  change (set_queueAreas [] (mkFrame (set_world w st) [] None))
    with (mkFrame (set_world w st) [] None).
  rewrite each_area_app by assumption.
  pose proof (each_area_promise E before (mkFrame (set_world w st) [] None)) as Hp.
  pose proof (each_area_downloadQueue E before (mkFrame (set_world w st) [] None)) as Hd.
  simpl in Hp, Hd.
  destruct (each_area E before (mkFrame (set_world w st) [] None)) as [r fr].
  simpl in Hp, Hd |- *. unfold bind.
  destruct (queueArea_unreadable bad fr Hbad) as [e ->].
  unfold reject, modify; simpl. rewrite Hp; simpl.
  split; [exists e; reflexivity | exact Hd].
Qed.

(** *** A failed list that holds [undefined] *)

Lemma some_never_false (p : value -> Result bool) (xs : list value) (x e : value) :
  In x xs -> p x = Throw e -> some p xs <> Ok false.
Proof.
  intros Hin Hx. induction xs as [ | y rest IH]; [contradiction | ].
  simpl. destruct Hin as [-> | Hin].
  - rewrite Hx. discriminate.
  - destruct (p y) as [[ | ] | e']; [discriminate | apply IH, Hin | discriminate].
Qed.

(** With [undefined] on the failed list the failed check cannot answer
    false: it finds a match before it gets there, or throws there. *)
Lemma isInFailedAreas_poisoned (areaName : value) (st : State W) :
  In VUndef (failedAreas st) -> fst (isInFailedAreas areaName st) <> Ok false.
Proof.
  intros Hin. unfold isInFailedAreas, bind, gets, lift_result; simpl.
  eapply some_never_false; [exact Hin | reflexivity].
Qed.

Lemma in_module_frame {A} (c : M (State W) A) (fr : Frame W) :
  queueAreas (snd (in_module c fr)) = queueAreas fr /\
  module (snd (in_module c fr)) = snd (c (module fr)) /\
  fst (in_module c fr) = fst (c (module fr)).
Proof.
  unfold in_module. destruct (c (module fr)) as [r m]. repeat split.
Qed.

(** With [undefined] on the failed list the try block never gets to the
    resolver: [queueAreas] stays as it was. *)
Lemma queueArea_try_poisoned (area : value) (fr : Frame W) :
  In VUndef (failedAreas (module fr)) ->
  queueAreas (snd (queueArea_try E area fr)) = queueAreas fr.
Proof.
  intros Hin. unfold queueArea_try.
  unfold bind at 1; unfold lift_result at 1.
  destruct (get_prop area "name") as [name | e]; [ | reflexivity].
  unfold bind at 1; unfold lift_result at 1.
  destruct (get_prop area "id") as [id | e]; [ | reflexivity].
  unfold bind at 1.
  destruct (in_module_frame (call (isAreaArchived E name id)) fr) as (Hq1 & Hm1 & _).
  destruct (in_module (call (isAreaArchived E name id)) fr) as [[archived | e] fr1];
    simpl in Hq1, Hm1; [ | exact Hq1].
  destruct (truthy archived); [exact Hq1 | ].
  unfold bind at 1; unfold lift_result at 1; cbv beta iota.
  unfold bind at 1.
  destruct (in_module_frame (isInDownloadQueue id) fr1) as (Hq2 & Hm2 & _).
  destruct (in_module (isInDownloadQueue id) fr1) as [[queued | e] fr2];
    simpl in Hq2, Hm2; [ | simpl; congruence].
  destruct queued; [simpl; congruence | ].
  unfold bind at 1; unfold lift_result at 1; cbv beta iota.
  unfold bind at 1.
  destruct (in_module_frame (isInFailedAreas name) fr2) as (Hq3 & Hm3 & Hr3).
  assert (Hpoison : In VUndef (failedAreas (module fr2))).
  { rewrite Hm2, Hm1. unfold call.
    destruct (isAreaArchived E name id (world (module fr))); exact Hin. }
  pose proof (isInFailedAreas_poisoned name (module fr2) Hpoison) as Hnf.
  rewrite <- Hr3 in Hnf.
  destruct (in_module (isInFailedAreas name) fr2) as [[failed | e] fr3];
    simpl in Hq3, Hnf; [ | simpl; congruence].
  destruct failed; [simpl; congruence | ].
  exfalso; apply Hnf; reflexivity.
Qed.

(** X14. Once [undefined] is on the failed list (the name of a failed entry
    or area that had none), no search queues anything any more, whatever the
    service answers. *)
Theorem undefined_failure_blocks_searches (query : string) (st : State W) :
  In VUndef (failedAreas st) ->
  downloadQueue (snd (queueSearch E query st)) = downloadQueue st /\
  In VUndef (failedAreas (snd (queueSearch E query st))).
Proof.
  intros Hin. unfold queueSearch.
  destruct (request E (toLowerCase query) (world st)) as [[error response] w].
  cbn [snd].
  assert (H : let fr := snd (search_callback E error response
                               (mkFrame (set_world w st) [] None)) in
              In VUndef (failedAreas (module fr)) /\ queueAreas fr = [] /\
              downloadQueue (module fr) = downloadQueue st).
  { apply (keeps_search_callback
             (fun fr => In VUndef (failedAreas (module fr)) /\ queueAreas fr = [] /\
                        downloadQueue (module fr) = downloadQueue st)).
    - intros area fr (Hp & Hq & Hd).
      destruct (readable area) eqn:Hr.
      + pose proof (queueArea_try_poisoned area fr Hp) as Hq'.
        destruct (queueArea_try_module area fr) as (Hd' & Hf' & _).
        destruct (queueArea_try E area fr) as [[c | e] fr'] eqn:Ht;
          simpl in Hq', Hd', Hf'.
        * rewrite (queueArea_completed E _ _ _ _ Hr Ht); simpl.
          rewrite Hf', Hq', Hd'. auto.
        * rewrite (queueArea_caught E _ _ _ _ Hr Ht); simpl.
          rewrite Hf', Hq', Hd'. split; [apply in_or_app; left; exact Hp | auto].
      + destruct (queueArea_unreadable area fr Hr) as [e ->]. simpl. auto.
    - intros reason. apply keeps_reject. intros s q p p' H; exact H.
    - intros fr H. unfold resolve, modify; simpl.
      destruct fr as [s q [p | ]]; exact H.
    - intros fr (Hp & _ & Hd). simpl. auto.
    - intros fr (Hp & Hq & Hd). simpl. rewrite Hq, app_nil_r. auto.
    - simpl. auto. }
  cbv zeta in H. destruct H as (Hp & _ & Hd). split; assumption.
Qed.

(** *** The search term *)

Lemma lower_ascii_idempotent (c : ascii) : lower_ascii (lower_ascii c) = lower_ascii c.
Proof.
  destruct c as [[] [] [] [] [] [] [] []]; reflexivity.
Qed.

Lemma toLowerCase_idempotent (s : string) : toLowerCase (toLowerCase s) = toLowerCase s.
Proof.
  induction s as [ | c s IH]; [reflexivity | ].
  simpl. rewrite lower_ascii_idempotent, IH. reflexivity.
Qed.

(** X16. A search is case-insensitive in its term: a query and its
    lower-case form give the same request and so the same outcome. *)
Theorem search_ignores_case (query : string) (st : State W) :
  queueSearch E query st = queueSearch E (toLowerCase query) st.
Proof.
  unfold queueSearch. rewrite toLowerCase_idempotent. reflexivity.
Qed.

(** *** The drain loop, turn by turn *)

Lemma tick_begin_queue (st : State W) :
  downloadQueue (snd (tick_begin st)) = tl (downloadQueue st).
Proof.
  unfold tick_begin, bind at 1, gets at 1; cbv beta iota.
  destruct (downloadQueue st) as [ | entry rest] eqn:Hq; [exact Hq | ].
  apply (keeps_after (fun s => downloadQueue s = tl (entry :: rest))).
  - rewrite <- Hq. apply next_call_queue.
  - intros c _. apply keeps_ret.
  - intros e. apply keeps_bind; [apply keeps_queue_step_catch | intros _; apply keeps_ret].
Qed.

Lemma tick_settle_queue (areaData : value) (outcome : Result value) (st : State W) :
  downloadQueue (snd (tick_settle areaData outcome st)) = downloadQueue st.
Proof.
  apply (keeps_try_catch (fun s => downloadQueue s = downloadQueue st)); [ | | reflexivity].
  - apply keeps_bind_result; intros status _. apply keeps_queue_record_status.
  - intros e. apply keeps_queue_step_catch.
Qed.

(** X17. In the drain loop the queue changes only when the timer fires (the
    front entry leaves) and when a caller appends; an archive call that
    settles later never touches it, so what was appended while a call was
    outstanding is still there, in order. *)
Theorem turn_queue (ev : Event) (l : Loop W) :
  downloadQueue (state (turn ev l)) =
    match ev with
    | Timer => tl (downloadQueue (state l))
    | Settles _ _ => downloadQueue (state l)
    | Appends items => concat (downloadQueue (state l)) items
    end.
Proof.
  destruct ev as [ | k outcome | items]; unfold turn.
  - pose proof (tick_begin_queue (state l)) as H.
    destruct (tick_begin (state l)) as [[[[areaData args] | ] | e] st1]; exact H.
  - destruct (nth_error (inflight l) k) as [areaData | ]; [ | reflexivity].
    apply tick_settle_queue.
  - reflexivity.
Qed.

(** *** A batch with one failing area *)

Lemma in_module_call_run (f : W -> Result value * W) (fr : Frame W)
      (r : Result value) (w : W) :
  f (world (module fr)) = (r, w) ->
  in_module (call f) fr =
    (r, mkFrame (set_world w (module fr)) (queueAreas fr) (promise fr)).
Proof. intros H; unfold in_module, call; rewrite H; reflexivity. Qed.

Lemma in_module_isInDownloadQueue (id : value) (fr : Frame W) :
  forallb documented_entry (downloadQueue (module fr)) = true ->
  is_undefined id = false ->
  in_module (isInDownloadQueue id) fr = (Ok false, fr).
Proof.
  intros Hq Hid. unfold in_module.
  pose proof (isInDownloadQueue_documented id (module fr) Hq) as H.
  pose proof (isInDownloadQueue_reads id (module fr)) as Hs.
  destruct (isInDownloadQueue id (module fr)) as [r m]; simpl in H, Hs; subst r m.
  rewrite Hid. destruct fr as [m q p]; simpl. destruct (downloadQueue m); reflexivity.
Qed.

Lemma in_module_isInFailedAreas (name : value) (fr : Frame W) :
  forallb is_name (failedAreas (module fr)) = true ->
  is_undefined name = false ->
  in_module (isInFailedAreas name) fr = (Ok false, fr).
Proof.
  intros Hf Hn. unfold in_module.
  pose proof (isInFailedAreas_documented name (module fr) Hf) as H.
  pose proof (isInFailedAreas_reads name (module fr)) as Hs.
  destruct (isInFailedAreas name (module fr)) as [r m]; simpl in H, Hs; subst r m.
  rewrite Hn. destruct fr as [m q p]; simpl. destruct (failedAreas m); reflexivity.
Qed.

Lemma named_unit_defined (area : value) :
  named_unit area = true ->
  is_name (prop area "name") = true /\
  is_undefined (prop area "name") = false /\
  is_undefined (prop area "id") = false.
Proof.
  unfold named_unit; intros H. apply andb_prop in H as [Hn Hi].
  split; [exact Hn | split].
  - destruct (prop area "name"); try discriminate Hn; reflexivity.
  - destruct (is_undefined (prop area "id")); [discriminate Hi | reflexivity].
Qed.

(** With a queue of documented entries and names on the failed list, the
    try block of a named area that is not archived gets as far as the
    resolver. *)
Lemma queueArea_try_to_resolver (area : value) (fr : Frame W) :
  readable area = true ->
  named_unit area = true ->
  forallb documented_entry (downloadQueue (module fr)) = true ->
  forallb is_name (failedAreas (module fr)) = true ->
  not_archived E area ->
  exists w1,
    queueArea_try E area fr =
      (identifiers <- in_module (call (getAreaIdentifiers E (prop area "id") (VBool false))) ;;
       console_log [VStr "Queueing"; prop area "name"] ;;
       iid <- lift_result (get_prop identifiers "id") ;;
       ikey <- lift_result (get_prop identifiers "key") ;;
       idata <- lift_result (get_prop identifiers "areaData") ;;
       push_queueAreas (root_entry (prop area "name") iid ikey idata) ;;
       iid <- lift_result (get_prop identifiers "id") ;;
       subAreas <- in_module (call (getSubAreas E iid)) ;;
       len <- lift_result (get_prop subAreas "length") ;;
       (if truthy len then
          modify (fun fr => set_queueAreas (concat (queueAreas fr) subAreas) fr) ;;
          console_log [len]
        else ret tt) ;;
       ret Queued)
      (mkFrame (set_world w1 (module fr)) (queueAreas fr) (promise fr)).
Proof.
  intros Hr Hn Hq Hf Harch.
  destruct (named_unit_defined area Hn) as (_ & Hname & Hid).
  destruct (Harch (world (module fr))) as (a & w1 & Ha & Hta).
  exists w1. unfold queueArea_try.
  rewrite !(get_prop_readable area) by assumption.
  unfold bind at 1; unfold lift_result at 1; cbv beta iota.
  unfold bind at 1; unfold lift_result at 1; cbv beta iota.
  unfold bind at 1. rewrite (in_module_call_run _ _ _ _ Ha). rewrite Hta.
  unfold bind at 1; unfold lift_result at 1; cbv beta iota.
  unfold bind at 1. rewrite in_module_isInDownloadQueue by assumption.
  unfold bind at 1; unfold lift_result at 1; cbv beta iota.
  unfold bind at 1. rewrite in_module_isInFailedAreas by assumption.
  unfold bind at 1; unfold lift_result at 1; cbv beta iota.
  reflexivity.
Qed.

Lemma queueArea_try_resolvable (area : value) (fr : Frame W) :
  readable area = true ->
  named_unit area = true ->
  forallb documented_entry (downloadQueue (module fr)) = true ->
  forallb is_name (failedAreas (module fr)) = true ->
  resolvable E area ->
  fst (queueArea_try E area fr) = Ok Queued.
Proof.
  intros Hr Hn Hq Hf [Harch Hres].
  destruct (queueArea_try_to_resolver area fr Hr Hn Hq Hf Harch) as [w1 ->].
  destruct (Hres w1) as (ids & w2 & Hids & Hrids & Hsubs).
  destruct (Hsubs w2) as (subs & w3 & Hsub & Hrsub).
  unfold bind at 1. erewrite in_module_call_run; [ | exact Hids]. cbv beta iota.
  unfold bind at 1; unfold console_log at 1, ret at 1; cbv beta iota.
  rewrite !(get_prop_readable ids) by assumption.
  unfold bind at 1; unfold lift_result at 1; cbv beta iota.
  unfold bind at 1; unfold lift_result at 1; cbv beta iota.
  unfold bind at 1; unfold lift_result at 1; cbv beta iota.
  unfold bind at 1; unfold push_queueAreas at 1, modify at 1; cbv beta iota.
  unfold bind at 1; unfold lift_result at 1; cbv beta iota.
  unfold bind at 1. erewrite in_module_call_run; [ | exact Hsub]. cbv beta iota.
  rewrite (get_prop_readable subs) by assumption.
  unfold bind at 1; unfold lift_result at 1; cbv beta iota.
  destruct (truthy (prop subs "length")); reflexivity.
Qed.

Lemma queueArea_try_fails (area e : value) (fr : Frame W) :
  readable area = true ->
  named_unit area = true ->
  forallb documented_entry (downloadQueue (module fr)) = true ->
  forallb is_name (failedAreas (module fr)) = true ->
  discovery_fails E area e ->
  fst (queueArea_try E area fr) = Throw e.
Proof.
  intros Hr Hn Hq Hf [Harch Hfail].
  destruct (queueArea_try_to_resolver area fr Hr Hn Hq Hf Harch) as [w1 ->].
  destruct Hfail as [Hids | Hsubs].
  - destruct (Hids w1) as (w2 & Hthrow).
    unfold bind at 1. erewrite in_module_call_run; [ | exact Hthrow].
    reflexivity.
  - destruct (Hsubs w1) as (ids & w2 & Hids & Hrids & Hsub).
    destruct (Hsub w2) as (w3 & Hthrow).
    unfold bind at 1. erewrite in_module_call_run; [ | exact Hids]. cbv beta iota.
    unfold bind at 1; unfold console_log at 1, ret at 1; cbv beta iota.
    rewrite !(get_prop_readable ids) by assumption.
    unfold bind at 1; unfold lift_result at 1; cbv beta iota.
    unfold bind at 1; unfold lift_result at 1; cbv beta iota.
    unfold bind at 1; unfold lift_result at 1; cbv beta iota.
    unfold bind at 1; unfold push_queueAreas at 1, modify at 1; cbv beta iota.
    unfold bind at 1; unfold lift_result at 1; cbv beta iota.
    unfold bind at 1. erewrite in_module_call_run; [ | exact Hthrow].
    reflexivity.
Qed.

Lemma forallb_firstn {A} (f : A -> bool) (k : nat) (xs : list A) :
  forallb f xs = true -> forallb f (firstn k xs) = true.
Proof.
  revert k; induction xs as [ | x rest IH]; intros [ | k] H; try reflexivity.
  simpl in H |- *. apply andb_prop in H as [Hx Hrest].
  rewrite Hx. apply IH, Hrest.
Qed.

(** Named areas leave only names on the failed list. *)
Lemma each_area_names (items : list value) (fr : Frame W) :
  forallb named_unit items = true ->
  forallb is_name (failedAreas (module fr)) = true ->
  forallb is_name (failedAreas (module (snd (each_area E items fr)))) = true.
Proof.
  intros Hn. rewrite forallb_forall in Hn.
  apply (keeps_each_area E
           (fun fr' => forallb is_name (failedAreas (module fr')) = true) items).
  intros area Hin. apply (keeps_queueArea E); auto.
  intros st q p H. cbn [module] in H.
  cbn [module failedAreas set_failedAreas]. rewrite forallb_app, H.
  destruct (named_unit_defined area (Hn area Hin)) as (Hname & _).
  cbn [forallb]. rewrite Hname. reflexivity.
Qed.

(** The frame in which the loop reaches an area of a listing of named
    areas still has a queue of documented entries and names on its failed
    list. *)
Lemma frame_before_documented (st : State W) (items : list value) (k : nat) (w : W) :
  documented_state st ->
  forallb named_unit items = true ->
  let fr := frame_before E items k (mkFrame (set_world w st) [] None) in
  forallb documented_entry (downloadQueue (module fr)) = true /\
  forallb is_name (failedAreas (module fr)) = true.
Proof.
  intros [Hq Hf] Hn. cbv zeta. unfold frame_before. split.
  - rewrite each_area_downloadQueue. exact Hq.
  - apply each_area_names; [apply forallb_firstn, Hn | exact Hf].
Qed.

(** X15. Batch resilience over named areas.  In a state of the documented
    shape, for a listing whose areas all carry a string name and an id: if
    discovery fails for one of them (it is not archived and its identifiers,
    or else its sub-areas, cannot be resolved), the search resolves, the
    name of that area is on the failed list and a failure record for it
    with the error is in the log, and every area of the listing that is not
    archived and whose identifiers and sub-areas resolve has its root entry
    and its sub-areas in the queue. *)
Theorem named_batch_resilience (query : string) (st : State W) (items : list value)
      (w : W) (k : nat) (area e : value) :
  lists_areas E query st items w ->
  documented_state st ->
  forallb named_unit items = true ->
  nth_error items k = Some area ->
  discovery_fails E area e ->
  fst (queueSearch E query st) = Some Resolved /\
  In (prop area "name") (failedAreas (snd (queueSearch E query st))) /\
  In (LogFailedArchive (prop area "name") (prop area "areaId") (prop area "areaKey") e)
     (recorder (snd (queueSearch E query st))) /\
  forall j other,
    nth_error items j = Some other ->
    resolvable E other ->
    exists w1 identifiers w2 subAreas w3,
      getAreaIdentifiers E (prop other "id") (VBool false) w1 = (Ok identifiers, w2) /\
      getSubAreas E (prop identifiers "id") w2 = (Ok subAreas, w3) /\
      forall entry,
        In entry (root_entry (prop other "name") (prop identifiers "id")
                             (prop identifiers "key") (prop identifiers "areaData")
                  :: sub_entries subAreas) ->
        In entry (downloadQueue (snd (queueSearch E query st))).
Proof.
  intros Hl Hdoc Hnamed Hk Hfail.
  assert (Hread : forallb readable items = true)
    by (destruct Hl as (? & ? & ? & _ & _ & _ & _ & _ & H); exact H).
  assert (Hunit : forall j other, nth_error items j = Some other ->
            readable other = true /\ named_unit other = true).
  { intros j other Hj. apply nth_error_In in Hj.
    rewrite forallb_forall in Hread, Hnamed. auto. }
  split; [rewrite (queueSearch_listing E _ _ _ _ Hl); reflexivity | ].
  assert (Hrec :
    In (prop area "name") (failedAreas (snd (queueSearch E query st))) /\
    In (LogFailedArchive (prop area "name") (prop area "areaId") (prop area "areaKey") e)
       (recorder (snd (queueSearch E query st)))).
  { destruct (Hunit k area Hk) as [Hr Hn].
    destruct (frame_before_documented st items k w Hdoc Hnamed) as [Hq Hf].
    pose proof (queueArea_try_fails area e _ Hr Hn Hq Hf Hfail) as Htry.
    destruct (queueArea_try E area
                (frame_before E items k (mkFrame (set_world w st) [] None)))
      as [r fr'] eqn:Hrun.
    simpl in Htry; subst r. rename Hrun into Htry.
    rewrite (queueSearch_listing E _ _ _ _ Hl).
    cbn [snd set_downloadQueue failedAreas recorder].
    destruct (each_area_at E items k area (mkFrame (set_world w st) [] None) Hread Hk)
      as [_ ->].
    rewrite (queueArea_caught E _ _ _ _ Hr Htry). cbn [snd].
    split.
    - apply each_area_failedAreas; cbn [module failedAreas].
      apply in_or_app; right; left; reflexivity.
    - apply each_area_recorder; cbn [module recorder].
      apply in_or_app; right; left; reflexivity. }
  destruct Hrec as [Hf Hrec].
  split; [exact Hf | split; [exact Hrec | ]].
  intros j other Hj Hres.
  destruct (Hunit j other Hj) as [Hr Hn].
  destruct (frame_before_documented st items j w Hdoc Hnamed) as [Hq Hfn].
  pose proof (queueArea_try_resolvable other _ Hr Hn Hq Hfn Hres) as Htry.
  destruct (queueArea_try E other
              (frame_before E items j (mkFrame (set_world w st) [] None)))
    as [r frj] eqn:Hrun.
  simpl in Htry; subst r. rename Hrun into Htry.
  destruct (queued_area_in_queue E _ _ _ _ _ _ _ Hl Hj Htry)
    as (w1 & identifiers & w2 & subAreas & w3 & before & after & Hids & Hsub & Hqueue).
  exists w1, identifiers, w2, subAreas, w3.
  split; [exact Hids | split; [exact Hsub | ]].
  intros entry Hin. rewrite Hqueue.
  apply in_or_app; right. apply in_or_app; right.
  destruct Hin as [<- | Hin]; [left; reflexivity | right].
  apply in_or_app; left; exact Hin.
Qed.

End Further.

(** *** Starting the drain loop *)

Lemma startDownloadQueue_fields (delay : Z) (h : Host) :
  intervals (startDownloadQueue delay h) = intervals h ++ [0%Z] /\
  downloadTimer (startDownloadQueue delay h) = Some (List.length (intervals h)) /\
  setup_calls (startDownloadQueue delay h) =
    setup_calls h ++ [CreateArchiveLog; RotateRunOutputLog; RotateFailedDownloadsLog].
Proof. repeat split. Qed.

(** X18. Starting the drain loop is not guarded: every call runs the three
    setup hooks again, each once and in the order create, rotate run output,
    rotate failed downloads, and adds one more interval timer with period zero,
    whatever delay was asked for, and [downloadTimer] is left with the
    handle of the last timer only. *)
Theorem starts_accumulate (delays : list Z) (h : Host) :
  let h' := fold_left (fun h delay => startDownloadQueue delay h) delays h in
  intervals h' = intervals h ++ repeat 0%Z (List.length delays) /\
  setup_calls h' =
    setup_calls h ++
    flat_map (fun _ => [CreateArchiveLog; RotateRunOutputLog; RotateFailedDownloadsLog])
             delays /\
  downloadTimer h' =
    match delays with
    | [] => downloadTimer h
    | _ :: _ => Some (List.length (intervals h) + List.length delays - 1)
    end.
Proof.
  cbv zeta. revert h; induction delays as [ | delay delays IH]; intros h.
  - simpl. rewrite !app_nil_r. repeat split.
  - simpl fold_left. destruct (IH (startDownloadQueue delay h)) as (Hi & Hs & Ht).
    destruct (startDownloadQueue_fields delay h) as (Fi & Ft & Fs).
    rewrite Hi, Hs, Ht, Fi, Fs, <- !app_assoc, !length_app.
    cbn [List.length app repeat flat_map].
    split; [reflexivity | split; [reflexivity | ]].
    destruct delays as [ | d ds].
    + rewrite Ft. cbn [List.length]. f_equal. lia.
    + rewrite ?length_app. cbn [List.length]. f_equal. lia.
Qed.

(** *** Instances of the properties above *)

Lemma ticks_idle_witness :
  downloadQueue (initial tt) = [] /\ ticks (stub []) 3 (initial tt) = initial tt.
Proof.
  split; [reflexivity | apply (ticks_idle (stub []) 3 (initial tt)); reflexivity].
Defined.

Lemma tick_on_status_witness :
  processQueueStep (stub []) queue_named =
    (Ok tt,
     mkState [area "B" "B"] []
             [AddArchiveLog (VStr "A") (VStr "A") VUndef VUndef VUndef] tt).
Proof.
  apply (tick_on_status (stub []) queue_named (area "A" "A") [area "B" "B"]
           (VObj [("success", VBool true); ("msg", VStr "archived")]) (VBool true) tt);
    reflexivity.
Defined.

Lemma tick_on_throw_witness :
  processQueueStep (stub []) (mkState [area "castle" "X"] [] [] tt) =
    (Throw (ReferenceError "areaName"), mkState [] [] [] tt).
Proof.
  apply (tick_on_throw (stub []) (mkState [area "castle" "X"] [] [] tt)
           (area "castle" "X") [] (VError "Error" "connection reset") tt);
    reflexivity.
Defined.

Lemma transport_error_rejects_witness :
  fst (queueSearch offline "castle" (initial tt)) =
    Some (Rejected (VError "Error" "ECONNRESET")).
Proof.
  apply (transport_error_rejects offline "castle" (initial tt)
           (VError "Error" "ECONNRESET") None tt); reflexivity.
Defined.

Lemma malformed_response_rejects_witness :
  exists reason,
    queueSearch (service (VObj [])) "castle" (initial tt) =
      (Some (Rejected reason), initial tt).
Proof.
  apply (malformed_response_rejects (service (VObj [])) "castle" (initial tt)
           VNull (Some (Text (Some (VObj [])))) tt); reflexivity.
Defined.

Lemma listing_resolves_witness :
  fst (queueSearch (stub three_areas) "Castle" (initial tt)) = Some Resolved.
Proof.
  apply (listing_resolves (stub three_areas) "Castle" (initial tt) three_areas tt).
  apply stub_lists_areas; reflexivity.
Defined.

Lemma archived_listing_enqueues_nothing_witness :
  let E := archived_service (VObj [("areas", VArr three_areas)]) in
  fst (queueSearch E "castle" (initial tt)) = Some Resolved /\
  downloadQueue (snd (queueSearch E "castle" (initial tt))) = [] /\
  failedAreas (snd (queueSearch E "castle" (initial tt))) = [] /\
  recorder (snd (queueSearch E "castle" (initial tt))) = [].
Proof.
  intros E.
  apply (archived_listing_enqueues_nothing E "castle" (initial tt) three_areas tt).
  - exists VNull, (VObj [("areas", VArr three_areas)]), VUndef.
    split; [reflexivity | ]. split; [reflexivity | ]. split; [reflexivity | ].
    split; [reflexivity | ]. split; reflexivity.
  - intros name id w0. exists (VBool true), w0. split; reflexivity.
Defined.

Lemma unreadable_area_rejects_witness :
  let E := stub [area "castle" "1"; VNull; area "tower" "2"] in
  (exists e, fst (queueSearch E "castle" (initial tt)) = Some (Rejected e)) /\
  downloadQueue (snd (queueSearch E "castle" (initial tt))) = [].
Proof.
  intros E.
  apply (unreadable_area_rejects E "castle" (initial tt) VNull
           (VObj [("areas", VArr [area "castle" "1"; VNull; area "tower" "2"])])
           VUndef VNull [area "castle" "1"] [area "tower" "2"] tt); reflexivity.
Defined.

Lemma undefined_failure_blocks_searches_witness :
  let st := ticks (stub []) 2 queue_ids_only in
  In VUndef (failedAreas st) /\
  downloadQueue (snd (queueSearch castle_B "castle" st)) = [].
Proof.
  intros st.
  assert (H : In VUndef (failedAreas st)) by (left; reflexivity).
  split; [exact H | ].
  exact (proj1 (undefined_failure_blocks_searches castle_B "castle" st H)).
Defined.

Lemma named_batch_resilience_witness :
  let E := stub three_areas in
  lists_areas E "Castle" (initial tt) three_areas tt /\
  documented_state (initial tt) /\
  forallb named_unit three_areas = true /\
  nth_error three_areas 1 = Some (area "ruin" "broken") /\
  discovery_fails E (area "ruin" "broken") (VError "Error" "no identifiers") /\
  resolvable E (area "tower" "2") /\
  fst (queueSearch E "Castle" (initial tt)) = Some Resolved /\
  In (VStr "ruin") (failedAreas (snd (queueSearch E "Castle" (initial tt)))) /\
  In (root_entry (VStr "tower") (VStr "2") (VStr "key") (VObj []))
     (downloadQueue (snd (queueSearch E "Castle" (initial tt)))).
Proof.
  intros E.
  assert (H1 : lists_areas E "Castle" (initial tt) three_areas tt)
    by (apply stub_lists_areas; reflexivity).
  assert (H2 : documented_state (initial tt)) by (split; reflexivity).
  assert (H3 : forallb named_unit three_areas = true) by reflexivity.
  assert (H4 : nth_error three_areas 1 = Some (area "ruin" "broken")) by reflexivity.
  assert (H5 : discovery_fails E (area "ruin" "broken") (VError "Error" "no identifiers")).
  { split.
    - intros w. exists (VBool false), w. split; reflexivity.
    - left. intros w. exists w. reflexivity. }
  assert (H6 : resolvable E (area "tower" "2")).
  { split.
    - intros w. exists (VBool false), w. split; reflexivity.
    - intros w. exists (identifiers_of (VStr "2")), w.
      split; [reflexivity | split; [reflexivity | ]].
      intros w2. exists (VArr []), w2. split; reflexivity. }
  destruct (named_batch_resilience E "Castle" (initial tt) three_areas tt 1
              (area "ruin" "broken") (VError "Error" "no identifiers")
              H1 H2 H3 H4 H5) as (R & F & _ & Q).
  destruct (Q 2 (area "tower" "2") eq_refl H6)
    as (w1 & identifiers & w2 & subAreas & w3 & Hids & _ & Hin).
  simpl in Hids. injection Hids as <- _.
  exact (conj H1 (conj H2 (conj H3 (conj H4 (conj H5 (conj H6
           (conj R (conj F (Hin _ (or_introl eq_refl)))))))))).
Defined.
